(** * Privilege rings of [pkg/capabilities/capabilities.go]

    A shallow embedding of the capability ring manager: the membership
    table [all], the snapshot [have], the big lock, and the methods
    [Privileged], [Required], [Requested], [Require], [Unrequire],
    [initialize] and [apply], together with the standalone functions
    [ReqByString] and [getKernelPerfEventParanoidValue].  The ring
    constants keep their names; the three methods that bear the same names
    in Go are [RunPrivileged], [RunRequired] and [RunRequested] here.

    Go methods on [Capabilities] become actions of a small state monad
    whose outcomes are a normal return, a Go panic, or a goroutine that
    blocks for ever on the mutex.  Go [error] results are ordinary values
    ([option error], [None] being [nil]).  Every call that leaves the
    package (libcap, the mutex, the logger, the callback) is recorded in a
    trace, newest event first. *)

From stdpp Require Import base option list gmap strings pretty.
From Stdlib Require Import ZArith Lia Ascii.

Set Warnings "-clear-no-such-hyp".

Open Scope string_scope.
Open Scope list_scope.

(** ** Data *)

(** [cap.Value] is an unsigned integer; the code never does arithmetic on
    it beyond counting up to [cap.MaxBits()]. *)
Abbreviation Value := nat.

(** [error] values of this package are all built by [fmt.Errorf]: they are
    their message. *)
Abbreviation error := string.

Inductive ringType : Type :=
  | Privileged   (* ring0 (all capabilities enabled, startup/shutdown) *)
  | Required     (* ring1 (needed capabilities only: config time) *)
  | Requested    (* ring2 (temporary specific capabilities) *)
  | Unprivileged. (* ring3 (no capabilities: runtime) *)

#[global] Instance ringType_eq_dec : EqDecision ringType.
Proof. solve_decision. Defined.

(** The [iota] numbering of the four constants. *)
Definition ringType_to_nat (t : ringType) : nat :=
  match t with
  | Privileged => 0
  | Required => 1
  | Requested => 2
  | Unprivileged => 3
  end.

Definition ringType_of_nat (n : nat) : option ringType :=
  match n with
  | 0 => Some Privileged
  | 1 => Some Required
  | 2 => Some Requested
  | 3 => Some Unprivileged
  | _ => None
  end.

#[global] Instance ringType_countable : Countable ringType.
Proof.
  apply (inj_countable ringType_to_nat ringType_of_nat).
  intros []; reflexivity.
Defined.

(** Capability numbers of [linux/capability.h] used by the package. *)
Definition IPC_LOCK : Value := 14.
Definition SYS_ADMIN : Value := 21.
Definition SYS_RESOURCE : Value := 24.
Definition PERFMON : Value := 38.
Definition BPF : Value := 39.

(** *** libcap's [cap.Set] *)

Inductive Flag : Type := Effective | Permitted | Inheritable.

(** Modelled from the spec: libcap's [cap.Set] is an external library
    type; following the adapter contract ("pure in-memory mutation of a
    snapshot's effective-set flag for one capability") a snapshot is three
    sets of capability values and [SetFlag]/[GetFlag] write and read one
    bit of one of them. *)
Record CapSet : Type := mkCapSet {
  effective : gset nat;
  permitted : gset nat;
  inheritable : gset nat;
}.

#[global] Instance CapSet_eq_dec : EqDecision CapSet.
Proof. solve_decision. Defined.

Definition flagVec (vec : Flag) (c : CapSet) : gset nat :=
  match vec with
  | Effective => effective c
  | Permitted => permitted c
  | Inheritable => inheritable c
  end.

Definition GetFlag (c : CapSet) (vec : Flag) (val : Value) : bool :=
  bool_decide (val ∈ flagVec vec c).

Definition flip (enable : bool) (val : Value) (X : gset nat) : gset nat :=
  if enable then {[val]} ∪ X else X ∖ {[val]}.

Definition SetFlag (c : CapSet) (vec : Flag) (enable : bool) (val : Value) : CapSet :=
  match vec with
  | Effective => mkCapSet (flip enable val (effective c)) (permitted c) (inheritable c)
  | Permitted => mkCapSet (effective c) (flip enable val (permitted c)) (inheritable c)
  | Inheritable => mkCapSet (effective c) (permitted c) (flip enable val (inheritable c))
  end.

(** libcap's answer when a method is called on a [nil] [*cap.Set]. *)
Definition ErrBadSet : error := "bad capability set".

(** *** The manager *)

(** [sync.Mutex]: only whether it is held matters here. *)
Record Mutex : Type := mkMutex { locked : bool }.

Record Capabilities : Type := mkCapabilities {
  have : option CapSet;                      (* pointer to cap.Set *)
  all : gmap nat (gmap ringType bool);       (* map[cap.Value]map[ringType]bool *)
  bypass : bool;
  initialized : bool;
  lock : option Mutex;                       (* pointer to sync.Mutex *)
}.

(** [Capabilities{}] *)
Definition zeroCapabilities : Capabilities :=
  mkCapabilities None ∅ false false None.

Definition with_have (h : option CapSet) (c : Capabilities) : Capabilities :=
  mkCapabilities h (all c) (bypass c) (initialized c) (lock c).
Definition with_all (a : gmap nat (gmap ringType bool)) (c : Capabilities) : Capabilities :=
  mkCapabilities (have c) a (bypass c) (initialized c) (lock c).
Definition with_bypass (b : bool) (c : Capabilities) : Capabilities :=
  mkCapabilities (have c) (all c) b (initialized c) (lock c).
Definition with_lock (l : option Mutex) (c : Capabilities) : Capabilities :=
  mkCapabilities (have c) (all c) (bypass c) (initialized c) l.

(** Reading [c.all[v][t]]: a missing outer key yields the nil inner map,
    and reading a nil or short inner map yields [false]. *)
Definition Membership (c : Capabilities) (v : Value) (t : ringType) : bool :=
  match all c !! v with
  | Some m => default false (m !! t)
  | None => false
  end.

(** *** Error functions *)

Definition couldNotFindCapability (cap : string) : error :=
  "could not find capability: " +:+ cap.
Definition couldNotReadPerfEventParanoid : error :=
  "could not read procfs perf_event_paranoid".
Definition couldNotSetProc (e : error) : error :=
  "could not set capabilities: " +:+ e.
Definition couldNotGetProc (e : error) : error :=
  "could not get capabilities: " +:+ e.
Definition alreadyInitialized : error :=
  "capabilities were already initialized".

(** The Go runtime's messages for the two panics the package can raise. *)
Definition nilMapAssignment : string := "assignment to entry in nil map".
Definition nilDereference : string := "invalid memory address or nil pointer dereference".
Definition unlockOfUnlocked : string := "sync: unlock of unlocked mutex".

(** [strings.TrimSuffix] *)
Definition HasSuffix (s suffix : string) : bool :=
  Nat.leb (String.length suffix) (String.length s) &&
  String.eqb (String.substring (String.length s - String.length suffix) (String.length suffix) s) suffix.

Definition TrimSuffix (s suffix : string) : string :=
  if HasSuffix s suffix then String.substring 0 (String.length s - String.length suffix) s else s.

Definition newline : string := String (Ascii.ascii_of_nat 10) "".

(** ** The world outside the package *)

(** What the package takes from libcap, the kernel, [os] and [strconv].
    None of it is in the repository, so it is a parameter of the whole
    development. *)
Class Platform (World : Type) : Type := {
  (** [cap.MaxBits()] *)
  MaxBits : nat;
  (** [cap.Value.String()] *)
  capString : Value → string;
  (** [cap.GetPID(0)]: the snapshot, or the error (and then a nil set). *)
  GetPID : World → (error + CapSet) * World;
  (** [SetProc()] of a non-nil [cap.Set]. *)
  SetProc : CapSet → World → option error * World;
  (** [cap.DropBound(v)] *)
  DropBound : Value → World → option error * World;
  (** [os.ReadFile(path)], as a string. *)
  ReadFile : string → World → error + string;
  (** [strconv.ParseInt(s, base, bitSize)] *)
  ParseInt : string → Z → Z → error + Z;
}.

Inductive Event : Type :=
  | EvLock
  | EvUnlock
  | EvGetPID (ok : bool)
  | EvSetProc (c : CapSet) (ok : bool)
  | EvDropBound (v : Value)
  | EvReadFile (path : string)
  | EvDebug (msg : string)
  | EvCallback (errCb : option error).

#[global] Instance Event_eq_dec : EqDecision Event.
Proof. solve_decision. Defined.

Section Manager.
Context {World : Type} `{!Platform World}.

(** The package-level singleton [Caps], the world, and the trace. *)
Record State : Type := mkState {
  Caps : Capabilities;
  world : World;
  trace : list Event;
}.

Definition with_Caps (f : Capabilities → Capabilities) (s : State) : State :=
  mkState (f (Caps s)) (world s) (trace s).
Definition with_world (w : World) (s : State) : State :=
  mkState (Caps s) w (trace s).
Definition emitted (e : Event) (s : State) : State :=
  mkState (Caps s) (world s) (e :: trace s).

(** ** The monad *)

Inductive Outcome (A : Type) : Type :=
  | Ret (a : A) (s : State)        (* the call returned [a] *)
  | Panic (msg : string) (s : State)  (* the goroutine panicked *)
  | Block (s : State).             (* the goroutine waits on a held mutex *)
Arguments Ret {A} a s.
Arguments Panic {A} msg s.
Arguments Block {A} s.

Definition M (A : Type) : Type := State → Outcome A.

Definition final {A} (o : Outcome A) : State :=
  match o with
  | Ret _ s => s
  | Panic _ s => s
  | Block s => s
  end.

Definition ret {A} (a : A) : M A := λ s, Ret a s.

Definition bind {A B} (m : M A) (k : A → M B) : M B := λ s,
  match m s with
  | Ret a s' => k a s'
  | Panic msg s' => Panic msg s'
  | Block s' => Block s'
  end.

#[local] Instance M_ret : MRet M := @ret.
#[local] Instance M_bind : MBind M := λ A B k m, bind m k.

Definition emit (e : Event) : M unit := λ s, Ret tt (emitted e s).

(** [defer d] around [body]: [d] runs when [body] returns and when it
    panics; a panic of [d] replaces the one in flight. *)
Definition deferring {A} (d : M unit) (body : M A) : M A := λ s,
  match body s with
  | Ret a s' =>
      match d s' with
      | Ret _ s'' => Ret a s''
      | Panic msg s'' => Panic msg s''
      | Block s'' => Block s''
      end
  | Panic msg s' =>
      match d s' with
      | Ret _ s'' => Panic msg s''
      | Panic msg' s'' => Panic msg' s''
      | Block s'' => Block s''
      end
  | Block s' => Block s'
  end.

Definition getCaps : M Capabilities := λ s, Ret (Caps s) s.
Definition modifyCaps (f : Capabilities → Capabilities) : M unit := λ s,
  Ret tt (with_Caps f s).

(** [for _, x := range l { f x }] *)
Fixpoint forRange {A} (f : A → M unit) (l : list A) : M unit :=
  match l with
  | [] => mret tt
  | x :: rest => f x ;; forRange f rest
  end.

(** [logger.Debug(msg, ...)] *)
Definition debug (msg : string) : M unit := emit (EvDebug msg).

(** ** The mutex *)

Definition Lock : M unit := λ s,
  match lock (Caps s) with
  | None => Panic nilDereference s
  | Some (mkMutex true) => Block s
  | Some (mkMutex false) =>
      Ret tt (emitted EvLock (with_Caps (with_lock (Some (mkMutex true))) s))
  end.

Definition Unlock : M unit := λ s,
  match lock (Caps s) with
  | None => Panic nilDereference s
  | Some (mkMutex false) => Panic unlockOfUnlocked s
  | Some (mkMutex true) =>
      Ret tt (emitted EvUnlock (with_Caps (with_lock (Some (mkMutex false))) s))
  end.

(** ** Private methods *)

Definition getProc : M (option error) := λ s,
  match GetPID (world s) with
  | (inr c, w) =>
      Ret None (emitted (EvGetPID true) (with_world w (with_Caps (with_have (Some c)) s)))
  | (inl e, w) =>
      Ret (Some (couldNotGetProc e))
          (emitted (EvGetPID false) (with_world w (with_Caps (with_have None) s)))
  end.

Definition setProc : M (option error) := λ s,
  match have (Caps s) with
  | None => Ret (Some (couldNotSetProc ErrBadSet)) s
  | Some c =>
      match SetProc c (world s) with
      | (None, w) => Ret None (emitted (EvSetProc c true) (with_world w s))
      | (Some e, w) =>
          Ret (Some (couldNotSetProc e)) (emitted (EvSetProc c false) (with_world w s))
      end
  end.

(** [c.all[v][t] = b]: the inner map of an absent key is nil, and writing
    to a nil map panics. *)
Definition assign (t : ringType) (b : bool) (v : Value) : M unit := λ s,
  match all (Caps s) !! v with
  | None => Panic nilMapAssignment s
  | Some m => Ret tt (with_Caps (with_all (<[v := <[t := b]> m]> (all (Caps s)))) s)
  end.

Definition set (t : ringType) (values : list Value) : M (option error) :=
  forRange (assign t true) values ;;
  mret None.

Definition unset (t : ringType) (values : list Value) : M (option error) :=
  forRange (assign t false) values ;;
  mret None.

(** [c.have.SetFlag(vec, enable, k)] *)
Definition haveSetFlag (vec : Flag) (enable : bool) (k : Value) : M (option error) := λ s,
  match have (Caps s) with
  | None => Ret (Some ErrBadSet) s
  | Some c => Ret None (with_Caps (with_have (Some (SetFlag c vec enable k))) s)
  end.

(** The body of [for k, v := range c.all] in [apply], over the entries of
    the table in the order the map hands them out. *)
Fixpoint applyRange (t : ringType) (kvs : list (nat * gmap ringType bool)) : M (option error) :=
  match kvs with
  | [] => mret None
  | (k, v) :: rest =>
      let vt := default false (v !! t) in
      (if vt then debug "enabling" else mret tt) ;;
      err ← haveSetFlag Effective vt k ;
      match err with
      | Some e => mret (Some e)
      | None => applyRange t rest
      end
  end.

Definition apply (t : ringType) : M (option error) :=
  err ← getProc ;
  match err with
  | Some e => mret (Some e)
  | None =>
      debug "capabilities change" ;;
      c ← getCaps ;
      err ← applyRange t (map_to_list (all c)) ;
      match err with
      | Some e => mret (Some e)
      | None => setProc
      end
  end.

(** ** Public methods *)

(** A callback is any code that returns: it may change the world, but it
    does not re-enter the manager (with the lock held that would block). *)
Definition Callback : Type := World → option error * World.

Definition call (cb : Callback) : M (option error) := λ s,
  let '(errCb, w) := cb (world s) in
  Ret errCb (emitted (EvCallback errCb) (with_world w s)).

(** [(c *Capabilities) Privileged(cb)] *)
Definition RunPrivileged (cb : Callback) : M (option error) :=
  let rest : M (option error) :=
    errCb ← call cb ;
    c ← getCaps ;
    if negb (bypass c) then
      err ← apply Unprivileged ;
      match err with
      | Some e => mret (Some e)
      | None => mret errCb
      end
    else mret errCb in
  c ← getCaps ;
  if negb (bypass c) then
    Lock ;;
    deferring Unlock (
      err ← apply Privileged ;
      match err with
      | Some e => mret (Some e)
      | None => rest
      end)
  else rest.

(** [(c *Capabilities) Required(cb)] *)
Definition RunRequired (cb : Callback) : M (option error) :=
  let rest : M (option error) :=
    errCb ← call cb ;
    c ← getCaps ;
    if negb (bypass c) then
      err ← apply Unprivileged ;
      match err with
      | Some e => mret (Some e)
      | None => mret errCb
      end
    else mret errCb in
  c ← getCaps ;
  if negb (bypass c) then
    Lock ;;
    deferring Unlock (
      err ← apply Required ;
      match err with
      | Some e => mret (Some e)
      | None => rest
      end)
  else rest.

(** [(c *Capabilities) Requested(cb, values...)] *)
Definition RunRequested (cb : Callback) (values : list Value) : M (option error) :=
  let rest : M (option error) :=
    errCb ← call cb ;
    c ← getCaps ;
    if negb (bypass c) then
      err ← apply Unprivileged ;
      match err with
      | Some e => mret (Some e)
      | None => mret errCb
      end
    else mret errCb in
  c ← getCaps ;
  if negb (bypass c) then
    Lock ;;
    deferring Unlock (
      err ← set Requested values ;
      match err with
      | Some e => mret (Some e)
      | None =>
          err ← apply Requested ;
          match err with
          | Some e => mret (Some e)
          | None =>
              err ← unset Requested values ;
              match err with
              | Some e => mret (Some e)
              | None => rest
              end
          end
      end)
  else rest.

Definition Require (values : list Value) : M (option error) :=
  c ← getCaps ;
  if bypass c then mret None
  else
    Lock ;;
    err ← set Required values ;
    Unlock ;;
    mret err.

Definition Unrequire (values : list Value) : M (option error) :=
  c ← getCaps ;
  if bypass c then mret None
  else
    Lock ;;
    err ← unset Required values ;
    Unlock ;;
    mret err.

(** ** Standalone functions *)

Definition MaxParanoiaLevel : Z := 4.
Definition perfEventParanoidPath : string := "/proc/sys/kernel/perf_event_paranoid".

(** What [getKernelPerfEventParanoidValue] returns in a given world. *)
Definition paranoidValueIn (w : World) : Z * option error :=
  match ReadFile perfEventParanoidPath w with
  | inl _ => (MaxParanoiaLevel, Some couldNotReadPerfEventParanoid)
  | inr value =>
      match ParseInt (TrimSuffix value newline) 0 16 with
      | inl _ => (MaxParanoiaLevel, Some couldNotReadPerfEventParanoid)
      | inr intVal => (intVal, None)
      end
  end.

Definition getKernelPerfEventParanoidValue : M (Z * option error) := λ s,
  Ret (paranoidValueIn (world s)) (emitted (EvReadFile perfEventParanoidPath) s).

(** The inner loop of [ReqByString]: [capsToActOn] and [found] after the
    values [vs] have been compared with [given]. *)
Fixpoint scanValues (given : string) (vs : list Value)
    (capsToActOn : list Value) (found : bool) : list Value * bool :=
  match vs with
  | [] => (capsToActOn, found)
  | v :: rest =>
      if String.eqb (capString v) given
      then scanValues given rest (capsToActOn ++ [v]) true
      else scanValues given rest capsToActOn found
  end.

Fixpoint ReqByStringFrom (values : list string) (capsToActOn : list Value)
    : list Value * option error :=
  match values with
  | [] => (capsToActOn, None)
  | given :: rest =>
      let '(capsToActOn', found) := scanValues given (seq 0 MaxBits) capsToActOn false in
      if found then ReqByStringFrom rest capsToActOn'
      else ([], Some (couldNotFindCapability given))
  end.

(** A nil slice is the empty list. *)
Definition ReqByString (values : list string) : list Value * option error :=
  ReqByStringFrom values [].

Definition ListAvailCaps : list string := map capString (seq 0 MaxBits).

(** ** Initialization *)

(** [c.have.GetFlag(vec, v)], the error dropped as the caller drops it. *)
Definition haveGetFlag (c : Capabilities) (vec : Flag) (v : Value) : bool :=
  match have c with
  | None => false
  | Some h => GetFlag h vec v
  end.

(** [c.all[v] = make(map[ringType]bool); c.all[v][Privileged] = true] *)
Definition seed (v : Value) : M unit :=
  modifyCaps (λ c, with_all (<[v := <[Privileged := true]> ∅]> (all c)) c).

Definition dropBound (v : Value) : M unit := λ s,
  let '(_, w) := DropBound v (world s) in
  Ret tt (emitted (EvDropBound v) (with_world w s)).

(** Lines 78 to 113 of [initialize]: the base of the Required ring, then
    ring3 as effective. *)
Definition policyBootstrap : M (option error) :=
  _ ← Require [IPC_LOCK; SYS_RESOURCE] ;
  '(paranoid, err) ← getKernelPerfEventParanoidValue ;
  (if err is Some _
   then debug "could not get perf_event_paranoid, assuming highest"
   else mret tt) ;;
  (if (2 <? paranoid)%Z
   then
     debug "paranoid: Value in /proc/sys/kernel/perf_event_paranoid is > 2" ;;
     debug "paranoid: Tracee needs CAP_SYS_ADMIN instead of CAP_BPF + CAP_PERFMON" ;;
     debug "paranoid: To change that behavior set perf_event_paranoid to 2 or less." ;;
     _ ← Require [SYS_ADMIN] ;
     mret tt
   else mret tt) ;;
  c ← getCaps ;
  let hasBPF := haveGetFlag c Permitted BPF in
  _ ← (if hasBPF then Require [BPF; PERFMON] else Require [SYS_ADMIN]) ;
  apply Unprivileged.

Definition initialize (bypass : bool) : M (option error) :=
  if bypass then
    modifyCaps (with_bypass true) ;;
    mret None
  else
    c ← getCaps ;
    if initialized c then mret (Some alreadyInitialized)
    else
      modifyCaps (with_lock (Some (mkMutex false))) ;;
      modifyCaps (with_all ∅) ;;
      forRange seed (seq 0 MaxBits) ;;
      err ← getProc ;
      match err with
      | Some e => mret (Some e)
      | None =>
          c ← getCaps ;
          forRange dropBound (map fst (map_to_list (all c))) ;;
          err ← setProc ;
          match err with
          | Some e => mret (Some e)
          | None => policyBootstrap
          end
      end.

Definition NewCapabilities (bypass : bool) : M (option error) :=
  modifyCaps (λ _, zeroCapabilities) ;;
  initialize bypass.

End Manager.

Arguments State World : clear implicits.
Arguments Outcome World A : clear implicits.
Arguments Ret {World A} a s.
Arguments Panic {World A} msg s.
Arguments Block {World A} s.
Arguments mkState {World} Caps world trace.
Arguments M World A : clear implicits.
Arguments Callback World : clear implicits.

(** ** A Linux instance

    A small executable world: the capability state the kernel holds
    for the thread, the bounding set, the content of the tunable file
    (when readable), and a script telling which of the coming [GetPID] and
    [SetProc] calls the kernel refuses. *)

Record Linux : Type := mkLinux {
  kernel : CapSet;
  bounding : gset nat;
  perf_event_paranoid : option string;
  refusals : list bool;
}.

Definition EPERM : error := "operation not permitted".
Definition ENOENT : error := "no such file or directory".
Definition ErrSyntax : error := "invalid syntax".
Definition ErrRange : error := "value out of range".

Definition capNames : list string :=
  [ "cap_chown"; "cap_dac_override"; "cap_dac_read_search"; "cap_fowner";
    "cap_fsetid"; "cap_kill"; "cap_setgid"; "cap_setuid"; "cap_setpcap";
    "cap_linux_immutable"; "cap_net_bind_service"; "cap_net_broadcast";
    "cap_net_admin"; "cap_net_raw"; "cap_ipc_lock"; "cap_ipc_owner";
    "cap_sys_module"; "cap_sys_rawio"; "cap_sys_chroot"; "cap_sys_ptrace";
    "cap_sys_pacct"; "cap_sys_admin"; "cap_sys_boot"; "cap_sys_nice";
    "cap_sys_resource"; "cap_sys_time"; "cap_sys_tty_config"; "cap_mknod";
    "cap_lease"; "cap_audit_write"; "cap_audit_control"; "cap_setfcap";
    "cap_mac_override"; "cap_mac_admin"; "cap_syslog"; "cap_wake_alarm";
    "cap_block_suspend"; "cap_audit_read"; "cap_perfmon"; "cap_bpf";
    "cap_checkpoint_restore" ].

Definition digitOf (a : Ascii.ascii) : option Z :=
  let n := Ascii.nat_of_ascii a in
  if Nat.leb 48 n && Nat.leb n 57 then Some (Z.of_nat (n - 48)) else None.

Fixpoint parseDigits (s : string) (acc : Z) : option Z :=
  match s with
  | EmptyString => Some acc
  | String a rest =>
      match digitOf a with
      | Some d => parseDigits rest (10 * acc + d)
      | None => None
      end
  end.

Definition inRange (bitSize n : Z) : error + Z :=
  if ((- 2 ^ (bitSize - 1) <=? n) && (n <? 2 ^ (bitSize - 1)))%Z
  then inr n else inl ErrRange.

(** Signed decimal numerals only; the other syntaxes base 0 admits are
    answered with a syntax error. *)
Definition parseDecimal (s : string) (base bitSize : Z) : error + Z :=
  match s with
  | EmptyString => inl ErrSyntax
  | String a rest =>
      if Ascii.eqb a "-"%char then
        match rest, parseDigits rest 0 with
        | String _ _, Some n => inRange bitSize (- n)
        | _, _ => inl ErrSyntax
        end
      else if Ascii.eqb a "+"%char then
        match rest, parseDigits rest 0 with
        | String _ _, Some n => inRange bitSize n
        | _, _ => inl ErrSyntax
        end
      else
        match parseDigits s 0 with
        | Some n => inRange bitSize n
        | None => inl ErrSyntax
        end
  end.

Definition refused (w : Linux) : bool * Linux :=
  match refusals w with
  | [] => (false, w)
  | r :: rest => (r, mkLinux (kernel w) (bounding w) (perf_event_paranoid w) rest)
  end.

#[global] Instance Linux_platform : Platform Linux := {
  MaxBits := 41;
  capString v := nth v capNames (pretty v);
  GetPID w :=
    let '(r, w') := refused w in
    if r then (inl EPERM, w') else (inr (kernel w'), w');
  SetProc c w :=
    let '(r, w') := refused w in
    if r then (Some EPERM, w')
    else (None, mkLinux c (bounding w') (perf_event_paranoid w') (refusals w'));
  DropBound v w :=
    (None, mkLinux (kernel w) (bounding w ∖ {[v]}) (perf_event_paranoid w) (refusals w));
  ReadFile path w :=
    if String.eqb path "/proc/sys/kernel/perf_event_paranoid" then
      match perf_event_paranoid w with
      | Some content => inr content
      | None => inl ENOENT
      end
    else inl ENOENT;
  ParseInt := parseDecimal;
}.

(** A root process on a recent kernel: every capability permitted and
    effective, the tunable at [content], and the given refusals. *)
Definition allCaps : gset nat := list_to_set (seq 0 41).

Definition rootWorld (content : option string) (script : list bool) : Linux :=
  mkLinux (mkCapSet allCaps allCaps ∅) allCaps content script.

Definition freshState (w : Linux) : State Linux :=
  mkState zeroCapabilities w [].

(** Callbacks that leave the world alone. *)
Definition cbOk : Callback Linux := λ w, (None, w).
Definition cbFail : Callback Linux := λ w, (Some "callback failed", w).

(** The manager [NewCapabilities false] builds for a root process whose
    tunable file holds [content], the kernel following [script]. *)
Definition booted (content : option string) (script : list bool) : State Linux :=
  final (NewCapabilities false (freshState (rootWorld content script))).

(** A manager at the point where the bootstrap starts: the table seeded,
    the snapshot taken, the mutex made. *)
Definition seeded (w : Linux) : State Linux :=
  final (forRange seed (seq 0 41)
    (mkState (mkCapabilities (Some (kernel w)) ∅ false false (Some (mkMutex false))) w [])).

(** A process that was not given BPF. *)
Definition withoutBPF (w : Linux) : Linux :=
  mkLinux (SetFlag (SetFlag (kernel w) Permitted false BPF) Effective false BPF)
          (bounding w) (perf_event_paranoid w) (refusals w).


(** ** Vocabulary of the claims *)

(** The three run-in-ring operations. *)
Inductive RingOp : Type :=
  | OpPrivileged
  | OpRequired
  | OpRequested (values : list Value).

Section Vocabulary.
Context {World : Type} `{!Platform World}.

Definition run (op : RingOp) (cb : Callback World) : M World (option error) :=
  match op with
  | OpPrivileged => RunPrivileged cb
  | OpRequired => RunRequired cb
  | OpRequested values => RunRequested cb values
  end.

(** The ring an operation elevates to. *)
Definition ringOf (op : RingOp) : ringType :=
  match op with
  | OpPrivileged => Privileged
  | OpRequired => Required
  | OpRequested _ => Requested
  end.

(** What an operation writes to the table before and after it applies its
    ring: only [RunRequested] stages and clears a column. *)
Definition stage (op : RingOp) : M World unit :=
  match op with
  | OpRequested values => forRange (assign Requested true) values
  | _ => ret tt
  end.

Definition unstage (op : RingOp) : M World unit :=
  match op with
  | OpRequested values => forRange (assign Requested false) values
  | _ => ret tt
  end.

(** The calls a client can make once the manager is built. *)
Inductive Call : Type :=
  | CallRequire (values : list Value)
  | CallUnrequire (values : list Value)
  | CallRun (op : RingOp) (cb : Callback World).

Definition exec (c : Call) : M World (option error) :=
  match c with
  | CallRequire values => Require values
  | CallUnrequire values => Unrequire values
  | CallRun op cb => run op cb
  end.

(** A client making the calls one after the other, collecting what they
    return; a panic or a blocked call ends the run. *)
Fixpoint execAll (cs : list Call) : M World (list (option error)) :=
  match cs with
  | [] => ret []
  | c :: rest =>
      bind (exec c) (λ r, bind (execAll rest) (λ rs, ret (r :: rs)))
  end.

(** The snapshot of the last successful commit. *)
Fixpoint lastCommit (tr : list Event) : option CapSet :=
  match tr with
  | [] => None
  | EvSetProc c true :: _ => Some c
  | _ :: rest => lastCommit rest
  end.

(** Ring [t] is active: the last snapshot committed to the kernel has, for
    every capability of the table, its effective flag equal to the table's
    column [t]. *)
Definition active (t : ringType) (s : State World) : bool :=
  match lastCommit (trace s) with
  | None => false
  | Some c =>
      forallb (λ kv, bool_decide (GetFlag c Effective kv.1 = default false (kv.2 !! t)))
              (map_to_list (all (Caps s)))
  end.

(** An event reporting that the kernel refused a query or a commit. *)
Definition refusal (e : Event) : bool :=
  match e with
  | EvGetPID false => true
  | EvSetProc _ false => true
  | _ => false
  end.

(** What bypass mode makes of a call: the result, the world and the
    events, from the callback alone. *)
Definition passOne (c : Call) (w : World) : option error * World * list Event :=
  match c with
  | CallRun _ cb => let '(errCb, w') := cb w in (errCb, w', [EvCallback errCb])
  | _ => (None, w, [])
  end.

Fixpoint passthrough (cs : list Call) (w : World)
    : list (option error) * World * list Event :=
  match cs with
  | [] => ([], w, [])
  | c :: rest =>
      let '(r, w', ev) := passOne c w in
      let '(rs, w'', evs) := passthrough rest w' in
      (r :: rs, w'', evs ++ ev)
  end.

(** The capabilities the bootstrap marks as Required, given the paranoia
    value it read and whether BPF is permitted. *)
Definition bootstrapValues (paranoid : Z) (hasBPF : bool) : list Value :=
  [IPC_LOCK; SYS_RESOURCE]
  ++ (if (2 <? paranoid)%Z then [SYS_ADMIN] else [])
  ++ (if hasBPF then [BPF; PERFMON] else [SYS_ADMIN]).

(** A name some known capability answers to. *)
Definition resolvable (name : string) : Prop :=
  ∃ v, v < MaxBits ∧ capString v = name.

(** What no call after initialization touches: the keys of the table,
    the two flags, and the Privileged and Unprivileged columns; the trace
    only grows. *)
Definition frame (s s' : State World) : Prop :=
  dom (all (Caps s')) = dom (all (Caps s)) ∧
  bypass (Caps s') = bypass (Caps s) ∧
  initialized (Caps s') = initialized (Caps s) ∧
  (∀ v, Membership (Caps s') v Privileged = Membership (Caps s) v Privileged) ∧
  (∀ v, Membership (Caps s') v Unprivileged = Membership (Caps s) v Unprivileged) ∧
  (∃ new, trace s' = new ++ trace s).

(** The same, and the mutex is as it was. *)
Definition quiet (s s' : State World) : Prop :=
  frame s s' ∧ lock (Caps s') = lock (Caps s).

(** [m] keeps [R] between the state it starts in and the state it ends
    in, whatever the outcome. *)
Definition preserves {A} (R : relation (State World)) (m : M World A) : Prop :=
  ∀ s, R s (final (m s)).

(** [m] keeps [R] between the state it starts in and the state it returns
    in, when it returns. *)
Definition preservesRet {A} (R : relation (State World)) (m : M World A) : Prop :=
  ∀ s a s', m s = Ret a s' → R s s'.

(** What a run-in-ring method does between taking and releasing the
    mutex, told once for the three of them. *)
Definition elevated (op : RingOp) (cb : Callback World) : M World (option error) :=
  bind (stage op) (λ _,
  bind (apply (ringOf op)) (λ err,
  match err with
  | Some e => ret (Some e)
  | None =>
      bind (unstage op) (λ _,
      bind (call cb) (λ errCb,
      bind getCaps (λ c,
      if negb (bypass c) then
        bind (apply Unprivileged) (λ err,
        match err with
        | Some e => ret (Some e)
        | None => ret errCb
        end)
      else ret errCb)))
  end)).

(** The snapshot [apply] builds from [c0] over the entries [kvs]. *)
Definition effectiveOf (t : ringType) (kvs : list (nat * gmap ringType bool))
    (c0 : CapSet) : CapSet :=
  foldl (λ c kv, SetFlag c Effective (default false (kv.2 !! t)) kv.1) c0 kvs.

(** An event that is a callback running. *)
Definition isCallback (e : Event) : bool :=
  match e with
  | EvCallback _ => true
  | _ => false
  end.

(** [s'] is [s] with the values [vs] added to the Required column, and
    possibly more events; nothing else of the manager or the world moved. *)
Definition requiredBy (vs : list Value) (s s' : State World) : Prop :=
  world s' = world s ∧
  have (Caps s') = have (Caps s) ∧
  bypass (Caps s') = bypass (Caps s) ∧
  lock (Caps s') = lock (Caps s) ∧
  dom (all (Caps s')) = dom (all (Caps s)) ∧
  ∀ v t, Membership (Caps s') v t
         = if decide (v ∈ vs ∧ t = Required) then true else Membership (Caps s) v t.

(** The tunable cannot be used: the file cannot be read, or what it holds
    is not an integer. *)
Definition tunableUnusable (w : World) : Prop :=
  match ReadFile perfEventParanoidPath w with
  | inl _ => True
  | inr value =>
      match ParseInt (TrimSuffix value newline) 0 16 with
      | inl _ => True
      | inr _ => False
      end
  end.

(** The values are keys of the table. *)
Definition known (vs : list Value) (s : State World) : Prop :=
  Forall (λ v, v ∈ dom (all (Caps s))) vs.

(** The [initialized] flag is what it was. *)
Definition sameInitialized (s s' : State World) : Prop :=
  initialized (Caps s') = initialized (Caps s).

(** An event that is a line of the debug log. *)
Definition isDebug (e : Event) : bool :=
  match e with
  | EvDebug _ => true
  | _ => false
  end.



(** [s'] is [s] with cell [t] of every value of [vs] written to [b];
    nothing else of the manager or of the world moved. *)
Definition wrote (t : ringType) (b : bool) (vs : list Value) (s s' : State World) : Prop :=
  world s' = world s ∧
  have (Caps s') = have (Caps s) ∧
  bypass (Caps s') = bypass (Caps s) ∧
  initialized (Caps s') = initialized (Caps s) ∧
  lock (Caps s') = lock (Caps s) ∧
  dom (all (Caps s')) = dom (all (Caps s)) ∧
  ∀ v t', Membership (Caps s') v t'
          = if decide (v ∈ vs ∧ t' = t) then b else Membership (Caps s) v t'.

(** The events older than the latest callback. *)
Fixpoint beforeCallback (tr : list Event) : list Event :=
  match tr with
  | [] => []
  | EvCallback _ :: rest => rest
  | _ :: rest => beforeCallback rest
  end.

(** The effective flag a run-in-ring method gives capability [k] for the
    time of its callback, read off the table the method was called on. *)
Definition elevatedFlag (op : RingOp) (c : Capabilities) (k : Value) : bool :=
  match op with
  | OpPrivileged => Membership c k Privileged
  | OpRequired => Membership c k Required
  | OpRequested values => bool_decide (k ∈ values) || Membership c k Requested
  end.

(** The table [initialize] builds for [n] capabilities. *)
Definition seedTable (n : nat) : gmap nat (gmap ringType bool) :=
  foldl (λ a v, <[v := <[Privileged := true]> ∅]> a) ∅ (seq 0 n).

(** The order in which [initialize] drops the capabilities from the
    bounding set, and the world once it has. *)
Definition dropOrder : list Value := (map_to_list (seedTable MaxBits)).*1.

Definition boundDropped (w : World) : World :=
  foldl (λ w v, (DropBound v w).2) w dropOrder.

(** The manager [initialize false] has built when it reaches its first
    commit: the snapshot queried, the seeded table, a fresh mutex. *)
Definition seededCaps (c : Capabilities) (h : option CapSet) : Capabilities :=
  mkCapabilities h (seedTable MaxBits) (bypass c) (initialized c) (Some (mkMutex false)).

(** A state with the mutex taken, and with the mutex released. *)
Definition locking (s : State World) : State World :=
  emitted EvLock (with_Caps (with_lock (Some (mkMutex true))) s).

Definition unlocking (s : State World) : State World :=
  emitted EvUnlock (with_Caps (with_lock (Some (mkMutex false))) s).

(** No two known capabilities answer to the same name. *)
Definition namesDistinct : Prop :=
  ∀ v w, v < MaxBits → w < MaxBits → capString v = capString w → v = w.

End Vocabulary.

Arguments Call World : clear implicits.

(** * Properties *)

Section Properties.
Context {World : Type} `{!Platform World}.

#[local] Existing Instance M_ret.
#[local] Existing Instance M_bind.

Ltac unmonad :=
  unfold mbind, M_bind, bind, mret, M_ret, ret, getCaps, modifyCaps, debug, emit in *.

(** ** The monad *)

Lemma bind_Ret {A B} (m : M World A) (k : A → M World B) s a s' :
  m s = Ret a s' → (m ≫= k) s = k a s'.
Proof. intros E. unmonad. by rewrite E. Qed.

Lemma bind_Panic {A B} (m : M World A) (k : A → M World B) s msg s' :
  m s = Panic msg s' → (m ≫= k) s = Panic msg s'.
Proof. intros E. unmonad. by rewrite E. Qed.

Lemma bind_inv {A B} (m : M World A) (k : A → M World B) s b s' :
  (m ≫= k) s = Ret b s' → ∃ a s1, m s = Ret a s1 ∧ k a s1 = Ret b s'.
Proof. unmonad. destruct (m s) as [a s1| |]; [eauto | done | done]. Qed.

#[local] Instance frame_preorder : PreOrder (@frame World).
Proof.
  split.
  - intros s. unfold frame. repeat split; try done. by exists [].
  - intros s1 s2 s3 (D1 & B1 & I1 & P1 & U1 & [n1 T1]) (D2 & B2 & I2 & P2 & U2 & [n2 T2]).
    unfold frame. split_and!; [congruence | congruence | congruence | | |].
    + intros v. by rewrite P2, P1.
    + intros v. by rewrite U2, U1.
    + exists (n2 ++ n1). by rewrite T2, T1, app_assoc.
Qed.

#[local] Instance quiet_preorder : PreOrder (@quiet World).
Proof.
  split.
  - intros s. split; reflexivity.
  - intros s1 s2 s3 [F1 L1] [F2 L2]. split; [by etrans | congruence].
Qed.

Lemma quiet_frame {A} (m : M World A) : preserves quiet m → preserves frame m.
Proof. intros H s. apply H. Qed.

Section Preserves.
Context (R : relation (State World)) `{!PreOrder R}.

Lemma preserves_ret {A} (a : A) : preserves R (mret a : M World A).
Proof. intros s. reflexivity. Qed.

Lemma preserves_bind {A B} (m : M World A) (k : A → M World B) :
  preserves R m → (∀ a, preserves R (k a)) → preserves R (m ≫= k).
Proof.
  intros Hm Hk s. specialize (Hm s). unmonad.
  destruct (m s) as [a s1| |]; simpl in *; [| done | done].
  etrans; [exact Hm | apply Hk].
Qed.

Lemma preserves_deferring {A} (d : M World unit) (body : M World A) :
  preserves R d → preserves R body → preserves R (deferring d body).
Proof.
  intros Hd Hb s. specialize (Hb s). unfold deferring.
  destruct (body s) as [a s1|msg s1|s1]; simpl in *; [| | done].
  - specialize (Hd s1). destruct (d s1); simpl in *; by etrans.
  - specialize (Hd s1). destruct (d s1); simpl in *; by etrans.
Qed.

Lemma preserves_forRange {A} (f : A → M World unit) (l : list A) :
  (∀ x, preserves R (f x)) → preserves R (forRange f l).
Proof.
  intros Hf. induction l as [|x l IH]; simpl.
  - apply preserves_ret.
  - apply preserves_bind; [apply Hf | intros _; exact IH].
Qed.

Lemma preserves_getCaps : preserves R (getCaps : M World _).
Proof. intros s. reflexivity. Qed.

End Preserves.

(** ** What the primitives leave alone *)

Lemma quiet_same_table (s s' : State World) new :
  all (Caps s') = all (Caps s) →
  bypass (Caps s') = bypass (Caps s) →
  initialized (Caps s') = initialized (Caps s) →
  lock (Caps s') = lock (Caps s) →
  trace s' = new ++ trace s →
  quiet s s'.
Proof.
  intros Ha Hb Hi Hl Ht. split; [|done].
  unfold frame, Membership. rewrite Ha. split_and!; eauto.
Qed.

Lemma preserves_emit e : preserves quiet (emit e : M World unit).
Proof. intros s. by apply (quiet_same_table _ _ [e]). Qed.

Lemma preserves_debug msg : preserves quiet (debug msg : M World unit).
Proof. apply preserves_emit. Qed.

Lemma preserves_getProc : preserves quiet (getProc : M World _).
Proof.
  intros s. unfold getProc. destruct (GetPID (world s)) as [[e|c] w]; simpl.
  - by apply (quiet_same_table _ _ [EvGetPID false]).
  - by apply (quiet_same_table _ _ [EvGetPID true]).
Qed.

Lemma preserves_setProc : preserves quiet (setProc : M World _).
Proof.
  intros s. unfold setProc. destruct (have (Caps s)) as [c|]; simpl; [|reflexivity].
  destruct (SetProc c (world s)) as [[e|] w]; simpl.
  - by apply (quiet_same_table _ _ [EvSetProc c false]).
  - by apply (quiet_same_table _ _ [EvSetProc c true]).
Qed.

Lemma preserves_haveSetFlag vec enable k :
  preserves quiet (haveSetFlag vec enable k : M World _).
Proof.
  intros s. unfold haveSetFlag. destruct (have (Caps s)) as [c|]; simpl; [|reflexivity].
  by apply (quiet_same_table _ _ []).
Qed.

Lemma preserves_call (cb : Callback World) : preserves quiet (call cb).
Proof.
  intros s. unfold call. destruct (cb (world s)) as [errCb w]; simpl.
  by apply (quiet_same_table _ _ [EvCallback errCb]).
Qed.

Lemma preserves_getKernelPerfEventParanoidValue :
  preserves quiet (getKernelPerfEventParanoidValue : M World _).
Proof. intros s. by apply (quiet_same_table _ _ [EvReadFile perfEventParanoidPath]). Qed.

Lemma preserves_dropBound v : preserves quiet (dropBound v : M World _).
Proof.
  intros s. unfold dropBound. destruct (DropBound v (world s)) as [r w]; simpl.
  by apply (quiet_same_table _ _ [EvDropBound v]).
Qed.

Lemma preserves_Lock : preserves frame (Lock : M World _).
Proof.
  intros s. unfold Lock. destruct (lock (Caps s)) as [[[]]|]; simpl; try reflexivity.
  unfold frame, Membership; simpl. split_and!; try done. by exists [EvLock].
Qed.

Lemma preserves_Unlock : preserves frame (Unlock : M World _).
Proof.
  intros s. unfold Unlock. destruct (lock (Caps s)) as [[[]]|]; simpl; try reflexivity.
  unfold frame, Membership; simpl. split_and!; try done. by exists [EvUnlock].
Qed.

(** Writing one cell of the Required or the Requested column. *)
Lemma Membership_assign (c : Capabilities) v m t b v' t' :
  all c !! v = Some m →
  Membership (with_all (<[v := <[t := b]> m]> (all c)) c) v' t'
  = if decide (v' = v ∧ t' = t) then b else Membership c v' t'.
Proof.
  intros Hv. unfold Membership; simpl.
  destruct (decide (v' = v)) as [->|Hne].
  - rewrite lookup_insert_eq, Hv.
    destruct (decide (t' = t)) as [->|Hnt].
    + rewrite lookup_insert_eq. by rewrite decide_True.
    + rewrite lookup_insert_ne by done. rewrite decide_False; [done | naive_solver].
  - rewrite lookup_insert_ne by done. rewrite decide_False; [done | naive_solver].
Qed.

Lemma preserves_assign t b v :
  t = Required ∨ t = Requested → preserves quiet (assign t b v : M World _).
Proof.
  intros Ht s. unfold assign.
  destruct (all (Caps s) !! v) as [m|] eqn:Hv; simpl; [|reflexivity].
  split; [|done]. unfold frame; simpl. split_and!; try done.
  - rewrite dom_insert_L. apply elem_of_dom_2 in Hv. set_solver.
  - intros v'. change (mkCapabilities _ _ _ _ _) with
      (with_all (<[v := <[t := b]> m]> (all (Caps s))) (Caps s)).
    rewrite Membership_assign by done. rewrite decide_False; [done|].
    intros [_ ?]. destruct Ht; congruence.
  - intros v'. change (mkCapabilities _ _ _ _ _) with
      (with_all (<[v := <[t := b]> m]> (all (Caps s))) (Caps s)).
    rewrite Membership_assign by done. rewrite decide_False; [done|].
    intros [_ ?]. destruct Ht; congruence.
  - by exists [].
Qed.

Ltac pret := apply preserves_ret; apply _.
Ltac pbind := apply preserves_bind; [apply _ | | ].
Ltac prange := apply preserves_forRange; [apply _ | intros ?].

Lemma preserves_set t values :
  t = Required ∨ t = Requested → preserves quiet (set t values : M World _).
Proof.
  intros Ht. unfold set. pbind; [|intros ?; pret]. prange. by apply preserves_assign.
Qed.

Lemma preserves_unset t values :
  t = Required ∨ t = Requested → preserves quiet (unset t values : M World _).
Proof.
  intros Ht. unfold unset. pbind; [|intros ?; pret]. prange. by apply preserves_assign.
Qed.

Lemma preserves_applyRange t kvs : preserves quiet (applyRange t kvs : M World _).
Proof.
  induction kvs as [|[k v] kvs IH]; simpl.
  - pret.
  - pbind; [|intros _].
    { destruct (default false (v !! t)); [apply preserves_debug | pret]. }
    pbind; [apply preserves_haveSetFlag|].
    intros [e|]; [pret | exact IH].
Qed.

Lemma preserves_apply t : preserves quiet (apply t : M World _).
Proof.
  unfold apply. pbind; [apply preserves_getProc|].
  intros [e|]; [pret|].
  pbind; [apply preserves_debug|intros _].
  pbind; [apply preserves_getCaps; apply _|intros c].
  pbind; [apply preserves_applyRange|].
  intros [e|]; [pret | apply preserves_setProc].
Qed.

(** ** What the public methods leave alone *)

Ltac pquiet lem := apply quiet_frame; apply lem.

Lemma preserves_afterCallback (cb : Callback World) :
  preserves quiet
    (errCb ← call cb ;
     c ← getCaps ;
     if negb (bypass c) then
       err ← apply Unprivileged ;
       match err with
       | Some e => mret (Some e)
       | None => mret errCb
       end
     else mret errCb).
Proof.
  pbind; [apply preserves_call | intros errCb].
  pbind; [apply preserves_getCaps; apply _ | intros c].
  destruct (negb (bypass c)); [|pret].
  pbind; [apply preserves_apply | intros [e|]; pret].
Qed.

(** The part of a run-in-ring method that runs with the mutex held. *)
Lemma preserves_elevated (t : ringType) (cb : Callback World) :
  preserves quiet
    (err ← apply t ;
     match err with
     | Some e => mret (Some e)
     | None =>
         errCb ← call cb ;
         c ← getCaps ;
         if negb (bypass c) then
           err ← apply Unprivileged ;
           match err with
           | Some e => mret (Some e)
           | None => mret errCb
           end
         else mret errCb
     end).
Proof.
  pbind; [apply preserves_apply | intros [e|]; [pret | apply preserves_afterCallback]].
Qed.

Lemma preserves_elevatedRequested (cb : Callback World) values :
  preserves quiet
    (err ← set Requested values ;
     match err with
     | Some e => mret (Some e)
     | None =>
         err ← apply Requested ;
         match err with
         | Some e => mret (Some e)
         | None =>
             err ← unset Requested values ;
             match err with
             | Some e => mret (Some e)
             | None =>
                 errCb ← call cb ;
                 c ← getCaps ;
                 if negb (bypass c) then
                   err ← apply Unprivileged ;
                   match err with
                   | Some e => mret (Some e)
                   | None => mret errCb
                   end
                 else mret errCb
             end
         end
     end).
Proof.
  pbind; [apply preserves_set; by right | intros [e|]; [pret|]].
  pbind; [apply preserves_apply | intros [e|]; [pret|]].
  pbind; [apply preserves_unset; by right | intros [e|]; [pret|]].
  apply preserves_afterCallback.
Qed.

Lemma preserves_RunPrivileged cb : preserves frame (RunPrivileged cb).
Proof.
  unfold RunPrivileged; cbv zeta.
  pbind; [apply preserves_getCaps; apply _ | intros c].
  destruct (negb (bypass c)); [|pquiet preserves_afterCallback].
  pbind; [apply preserves_Lock | intros _].
  apply preserves_deferring; [apply _ | apply preserves_Unlock |].
  pquiet preserves_elevated.
Qed.

Lemma preserves_RunRequired cb : preserves frame (RunRequired cb).
Proof.
  unfold RunRequired; cbv zeta.
  pbind; [apply preserves_getCaps; apply _ | intros c].
  destruct (negb (bypass c)); [|pquiet preserves_afterCallback].
  pbind; [apply preserves_Lock | intros _].
  apply preserves_deferring; [apply _ | apply preserves_Unlock |].
  pquiet preserves_elevated.
Qed.

Lemma preserves_RunRequested cb values : preserves frame (RunRequested cb values).
Proof.
  unfold RunRequested; cbv zeta.
  pbind; [apply preserves_getCaps; apply _ | intros c].
  destruct (negb (bypass c)); [|pquiet preserves_afterCallback].
  pbind; [apply preserves_Lock | intros _].
  apply preserves_deferring; [apply _ | apply preserves_Unlock |].
  pquiet preserves_elevatedRequested.
Qed.

Lemma preserves_Require values : preserves frame (Require values : M World _).
Proof.
  unfold Require.
  pbind; [apply preserves_getCaps; apply _ | intros c].
  destruct (bypass c); [pret|].
  pbind; [apply preserves_Lock | intros _].
  pbind; [apply quiet_frame, preserves_set; by left | intros err].
  pbind; [apply preserves_Unlock | intros _; pret].
Qed.

Lemma preserves_Unrequire values : preserves frame (Unrequire values : M World _).
Proof.
  unfold Unrequire.
  pbind; [apply preserves_getCaps; apply _ | intros c].
  destruct (bypass c); [pret|].
  pbind; [apply preserves_Lock | intros _].
  pbind; [apply quiet_frame, preserves_unset; by left | intros err].
  pbind; [apply preserves_Unlock | intros _; pret].
Qed.

Lemma preserves_exec c : preserves frame (exec c).
Proof.
  destruct c as [values|values|[| |values] cb]; simpl.
  - apply preserves_Require.
  - apply preserves_Unrequire.
  - apply preserves_RunPrivileged.
  - apply preserves_RunRequired.
  - apply preserves_RunRequested.
Qed.

Lemma preserves_execAll cs : preserves frame (execAll cs).
Proof.
  induction cs as [|c cs IH]; simpl.
  - intros s. reflexivity.
  - apply (preserves_bind frame (exec c)); [apply preserves_exec | intros r].
    apply (preserves_bind frame (execAll cs)); [exact IH | intros rs s; reflexivity].
Qed.

(** ** Calls that return *)

Lemma preserves_preservesRet {A} R (m : M World A) : preserves R m → preservesRet R m.
Proof. intros H s a s' E. specialize (H s). by rewrite E in H. Qed.

Lemma preservesRet_bind {A B} R `{!Transitive R} (m : M World A) (k : A → M World B) :
  preservesRet R m → (∀ a, preservesRet R (k a)) → preservesRet R (m ≫= k).
Proof.
  intros Hm Hk s b s' E. apply bind_inv in E as (a & s1 & E1 & E2).
  etrans; [by eapply Hm | by eapply Hk].
Qed.

Lemma Lock_Ret (s s' : State World) :
  Lock s = Ret tt s' →
  lock (Caps s) = Some (mkMutex false) ∧
  s' = emitted EvLock (with_Caps (with_lock (Some (mkMutex true))) s).
Proof.
  unfold Lock. destruct (lock (Caps s)) as [[[]]|]; try done. by intros [= <-].
Qed.

Lemma Lock_free (s : State World) :
  lock (Caps s) = Some (mkMutex false) →
  Lock s = Ret tt (emitted EvLock (with_Caps (with_lock (Some (mkMutex true))) s)).
Proof. unfold Lock. by intros ->. Qed.

Lemma Unlock_held (s : State World) :
  lock (Caps s) = Some (mkMutex true) →
  Unlock s = Ret tt (emitted EvUnlock (with_Caps (with_lock (Some (mkMutex false))) s)).
Proof. unfold Unlock. by intros ->. Qed.

(** A table mutator that returns hands the mutex back as it took it. *)
Lemma mutator_Ret_lock (body : M World (option error)) s r s' :
  preserves quiet body →
  (Lock ;; err ← body ; Unlock ;; mret err) s = Ret r s' →
  lock (Caps s') = lock (Caps s).
Proof.
  intros Hq E.
  apply bind_inv in E as ([] & s1 & E1 & E).
  apply Lock_Ret in E1 as [Hl ->].
  apply bind_inv in E as (err & s2 & E2 & E).
  apply bind_inv in E as ([] & s3 & E3 & E).
  pose proof (Hq (emitted EvLock (with_Caps (with_lock (Some (mkMutex true))) s))) as [_ Hl2].
  rewrite E2 in Hl2; simpl in Hl2.
  rewrite (Unlock_held _ Hl2) in E3. injection E3 as <-.
  unfold mret, M_ret, ret in E. injection E as _ <-. by rewrite Hl.
Qed.

Lemma preservesRet_Require values : preservesRet quiet (Require values : M World _).
Proof.
  intros s r s' E. split.
  - pose proof (preserves_Require values s) as H. by rewrite E in H.
  - unfold Require in E. apply bind_inv in E as (c & s1 & [= <- <-] & E).
    destruct (bypass (Caps s)).
    + by injection E as _ <-.
    + eapply mutator_Ret_lock; [|exact E]. apply preserves_set. by left.
Qed.

Lemma preservesRet_Unrequire values : preservesRet quiet (Unrequire values : M World _).
Proof.
  intros s r s' E. split.
  - pose proof (preserves_Unrequire values s) as H. by rewrite E in H.
  - unfold Unrequire in E. apply bind_inv in E as (c & s1 & [= <- <-] & E).
    destruct (bypass (Caps s)).
    + by injection E as _ <-.
    + eapply mutator_Ret_lock; [|exact E]. apply preserves_unset. by left.
Qed.

(** With the mutex held around [body]: the call returns only if the mutex
    was free, and then [body] returned and the mutex is free again. *)
Lemma guarded_Ret {A} (body : M World A) s r s' :
  preserves quiet body →
  (Lock ;; deferring Unlock body) s = Ret r s' →
  lock (Caps s) = Some (mkMutex false) ∧
  ∃ s1, body (emitted EvLock (with_Caps (with_lock (Some (mkMutex true))) s)) = Ret r s1 ∧
        s' = emitted EvUnlock (with_Caps (with_lock (Some (mkMutex false))) s1).
Proof.
  intros Hq E.
  apply bind_inv in E as ([] & s1 & E1 & E).
  apply Lock_Ret in E1 as [Hl ->]. split; [done|].
  unfold deferring in E.
  pose proof (Hq (emitted EvLock (with_Caps (with_lock (Some (mkMutex true))) s))) as [_ Hl2].
  destruct (body _) as [a s2|msg s2|s2]; simpl in Hl2.
  - rewrite (Unlock_held _ Hl2) in E. injection E as <- <-. eauto.
  - rewrite (Unlock_held _ Hl2) in E. done.
  - done.
Qed.

Lemma preservesRet_run op cb : preservesRet quiet (run op cb).
Proof.
  intros s r s' E. split.
  - pose proof (preserves_exec (CallRun op cb) s) as H. simpl in H. by rewrite E in H.
  - destruct op as [| |values]; simpl in E.
    + unfold RunPrivileged in E; cbv zeta in E.
      apply bind_inv in E as (c & s1 & [= <- <-] & E).
      destruct (negb (bypass (Caps s))).
      * apply guarded_Ret in E as (Hl & s1 & _ & ->); [by rewrite Hl|].
        apply preserves_elevated.
      * pose proof (preserves_afterCallback cb s) as [_ H]. by rewrite E in H.
    + unfold RunRequired in E; cbv zeta in E.
      apply bind_inv in E as (c & s1 & [= <- <-] & E).
      destruct (negb (bypass (Caps s))).
      * apply guarded_Ret in E as (Hl & s1 & _ & ->); [by rewrite Hl|].
        apply preserves_elevated.
      * pose proof (preserves_afterCallback cb s) as [_ H]. by rewrite E in H.
    + unfold RunRequested in E; cbv zeta in E.
      apply bind_inv in E as (c & s1 & [= <- <-] & E).
      destruct (negb (bypass (Caps s))).
      * apply guarded_Ret in E as (Hl & s1 & _ & ->); [by rewrite Hl|].
        apply preserves_elevatedRequested.
      * pose proof (preserves_afterCallback cb s) as [_ H]. by rewrite E in H.
Qed.

Lemma preservesRet_exec c : preservesRet quiet (exec c).
Proof.
  destruct c as [values|values|op cb]; simpl.
  - apply preservesRet_Require.
  - apply preservesRet_Unrequire.
  - apply preservesRet_run.
Qed.

Lemma preservesRet_execAll cs : preservesRet quiet (execAll cs).
Proof.
  induction cs as [|c cs IH]; simpl.
  - intros s a s' [= _ <-]. reflexivity.
  - apply (preservesRet_bind quiet (exec c)); [apply preservesRet_exec | intros r].
    apply (preservesRet_bind quiet (execAll cs)); [exact IH | ].
    intros rs s a s' [= _ <-]. reflexivity.
Qed.

(** ** Initialization *)

Lemma forRange_seed (l : list Value) (s : State World) :
  ∃ s', forRange seed l s = Ret tt s' ∧
        world s' = world s ∧ trace s' = trace s ∧
        have (Caps s') = have (Caps s) ∧ bypass (Caps s') = bypass (Caps s) ∧
        initialized (Caps s') = initialized (Caps s) ∧ lock (Caps s') = lock (Caps s) ∧
        ∀ v, all (Caps s') !! v
             = if decide (v ∈ l) then Some (<[Privileged := true]> ∅) else all (Caps s) !! v.
Proof.
  revert s. induction l as [|x l IH]; intros s; simpl.
  - exists s. by split_and!.
  - destruct (IH (with_Caps (λ c, with_all (<[x := <[Privileged := true]> ∅]> (all c)) c) s))
      as (s' & E & Hw & Ht & Hh & Hb & Hi & Hl & Ha).
    exists s'. split_and!; try done.
    intros v. rewrite Ha. simpl.
    destruct (decide (v ∈ l)) as [Hin|Hnin].
    + rewrite decide_True; [done | set_solver].
    + destruct (decide (v = x)) as [->|Hne].
      * rewrite lookup_insert_eq. rewrite decide_True; [done | set_solver].
      * rewrite lookup_insert_ne by done. rewrite decide_False; [done | set_solver].
Qed.

Lemma preservesRet_policyBootstrap : preservesRet quiet (policyBootstrap : M World _).
Proof.
  unfold policyBootstrap.
  apply preservesRet_bind; [apply _ | apply preservesRet_Require | intros _].
  apply preservesRet_bind;
    [apply _ | apply preserves_preservesRet, preserves_getKernelPerfEventParanoidValue |].
  intros [paranoid err].
  apply preservesRet_bind; [apply _ | apply preserves_preservesRet | intros _].
  { destruct err; [apply preserves_debug | pret]. }
  apply preservesRet_bind; [apply _ | | intros _].
  { destruct (2 <? paranoid)%Z; [|apply preserves_preservesRet; pret].
    repeat (apply preservesRet_bind;
      [apply _ | apply preserves_preservesRet, preserves_debug | intros _]).
    apply preservesRet_bind; [apply _ | apply preservesRet_Require | intros _].
    apply preserves_preservesRet; pret. }
  apply preservesRet_bind;
    [apply _ | apply preserves_preservesRet, preserves_getCaps; apply _ | intros c].
  apply preservesRet_bind; [apply _ | | intros _].
  { destruct (haveGetFlag c Permitted BPF); apply preservesRet_Require. }
  apply preserves_preservesRet, preserves_apply.
Qed.

(** What a non-bypass [initialize] that got as far as returning [nil] has
    done: the table was rebuilt with exactly the platform's capabilities,
    each Privileged only, and the rest of the call only touched the
    Required and Requested columns. *)
Lemma initialize_false_nil (s0 s1 : State World) :
  initialize false s0 = Ret None s1 →
  initialized (Caps s0) = false ∧
  ∃ s, quiet s s1 ∧
       bypass (Caps s) = bypass (Caps s0) ∧
       lock (Caps s) = Some (mkMutex false) ∧
       ∀ v, all (Caps s) !! v
            = if decide (v < MaxBits) then Some (<[Privileged := true]> ∅) else None.
Proof.
  unfold initialize. intros E.
  apply bind_inv in E as (c & s' & [= <- <-] & E).
  destruct (initialized (Caps s0)) eqn:Hi; [done|]. split; [done|].
  apply bind_inv in E as ([] & s' & [= <-] & E).
  apply bind_inv in E as ([] & s' & [= <-] & E).
  apply bind_inv in E as ([] & s & Es & E).
  destruct (forRange_seed (seq 0 MaxBits)
    (with_Caps (with_all ∅) (with_Caps (with_lock (Some (mkMutex false))) s0)))
    as (s_ & Es' & Hw & Ht & Hh & Hb & Hi' & Hl & Ha).
  rewrite Es in Es'. injection Es' as <-.
  exists s. split_and!; [|done|done|].
  - assert (preservesRet quiet
      (err ← getProc ;
       match err with
       | Some e => mret (Some e)
       | None =>
           c ← getCaps ;
           forRange dropBound (map fst (map_to_list (all c))) ;;
           err ← setProc ;
           match err with
           | Some e => mret (Some e)
           | None => policyBootstrap
           end
       end : M World _)) as Hc; [|exact (Hc _ _ _ E)].
    apply preservesRet_bind;
      [apply _ | apply preserves_preservesRet, preserves_getProc |].
    intros [e|]; [apply preserves_preservesRet; pret|].
    apply preservesRet_bind;
      [apply _ | apply preserves_preservesRet, preserves_getCaps; apply _ | intros c].
    apply preservesRet_bind; [apply _ | apply preserves_preservesRet | intros _].
    { prange. apply preserves_dropBound. }
    apply preservesRet_bind;
      [apply _ | apply preserves_preservesRet, preserves_setProc |].
    intros [e|]; [apply preserves_preservesRet; pret|].
    apply preservesRet_policyBootstrap.
  - intros v. rewrite Ha. simpl. rewrite lookup_empty.
    destruct (decide (v < MaxBits)).
    + rewrite decide_True; [done|]. apply elem_of_seq. lia.
    + rewrite decide_False; [done|]. rewrite elem_of_seq. lia.
Qed.

Lemma Membership_seeded (c : Capabilities) v t :
  all c !! v = Some (<[Privileged := true]> ∅) →
  Membership c v t = bool_decide (t = Privileged).
Proof.
  intros Hv. unfold Membership. rewrite Hv. by destruct t.
Qed.

Lemma initialized_manager (s0 s1 : State World) :
  initialize false s0 = Ret None s1 →
  (∀ v, v ∈ dom (all (Caps s1)) ↔ v < MaxBits) ∧
  (∀ v, v < MaxBits → Membership (Caps s1) v Privileged = true) ∧
  (∀ v, Membership (Caps s1) v Unprivileged = false) ∧
  bypass (Caps s1) = bypass (Caps s0) ∧
  lock (Caps s1) = Some (mkMutex false).
Proof.
  intros E. apply initialize_false_nil in E as (_ & s & [F Hl] & Hb & Hl0 & Ha).
  destruct F as (Hd & Hb' & _ & Hp & Hu & _).
  split_and!.
  - intros v. rewrite Hd, elem_of_dom, Ha. destruct (decide (v < MaxBits)).
    + split; [done | by eauto].
    + split; [by intros [? ?] | done].
  - intros v Hv. rewrite Hp. rewrite (Membership_seeded _ _ _ (eq_trans (Ha v) (decide_True _ _ Hv))).
    done.
  - intros v. rewrite Hu. unfold Membership. rewrite Ha.
    by destruct (decide (v < MaxBits)).
  - congruence.
  - congruence.
Qed.

(** C6. After a non-bypass [initialize] that succeeded, and after any
    sequence of [Require], [Unrequire], [RunPrivileged], [RunRequired] and
    [RunRequested] calls, whatever they return and even if the last one
    panics: every known capability is in the Privileged column and none is
    in the Unprivileged column, and both columns are, for every value,
    exactly what they were when [initialize] returned. *)
Theorem privileged_unprivileged_columns_fixed
    (s0 s1 : State World) (cs : list (Call World)) (v : Value) :
  initialize false s0 = Ret None s1 →
  (v < MaxBits →
     Membership (Caps (final (execAll cs s1))) v Privileged = true ∧
     Membership (Caps (final (execAll cs s1))) v Unprivileged = false) ∧
  Membership (Caps (final (execAll cs s1))) v Privileged
    = Membership (Caps s1) v Privileged ∧
  Membership (Caps (final (execAll cs s1))) v Unprivileged
    = Membership (Caps s1) v Unprivileged.
Proof.
  intros E. apply initialized_manager in E as (_ & Hp & Hu & _).
  destruct (preserves_execAll cs s1) as (_ & _ & _ & Fp & Fu & _).
  split_and!.
  - intros Hv. rewrite Fp, Fu. auto.
  - apply Fp.
  - apply Fu.
Qed.

(** ** Values the platform does not know *)

Lemma forRange_assign_unknown t b (values : list Value) (s : State World) v :
  t = Required ∨ t = Requested →
  v ∈ values → v ∉ dom (all (Caps s)) →
  ∃ s', forRange (assign t b) values s = Panic nilMapAssignment s' ∧ quiet s s'.
Proof.
  intros Ht. revert s. induction values as [|x values IH]; intros s Hin Hv.
  - by apply elem_of_nil in Hin.
  - simpl. pose proof (preserves_assign t b x Ht s) as Hq.
    unfold mbind, M_bind, bind.
    destruct (assign t b x s) as [[] s1|msg s1|s1] eqn:Ea; simpl in Hq.
    + apply elem_of_cons in Hin as [->|Hin].
      { exfalso. apply Hv. unfold assign in Ea.
        destruct (all (Caps s) !! x) eqn:Hx; [|done]. by apply elem_of_dom_2 in Hx. }
      destruct (IH s1 Hin) as (s' & E & Hq').
      { destruct Hq as [(Hd & _) _]. by rewrite Hd. }
      exists s'. split; [exact E | by etrans].
    + exists s1. unfold assign in Ea.
      destruct (all (Caps s) !! x); [done|]. by injection Ea as <- <-.
    + unfold assign in Ea. by destruct (all (Caps s) !! x).
Qed.

Lemma mutator_unknown (body : M World (option error)) (s s1 : State World) :
  lock (Caps s) = Some (mkMutex false) →
  body (emitted EvLock (with_Caps (with_lock (Some (mkMutex true))) s))
    = Panic nilMapAssignment s1 →
  (Lock ;; err ← body ; Unlock ;; mret err) s = Panic nilMapAssignment s1.
Proof.
  intros Hl E. rewrite (bind_Ret _ _ _ _ _ (Lock_free _ Hl)).
  by rewrite (bind_Panic _ _ _ _ _ E).
Qed.

(** C10. On a manager built by a non-bypass [NewCapabilities], after any
    calls that returned, [Require], [Unrequire] and [RunRequested] given a
    value at or above [MaxBits] do not return: they panic on the write to
    the nil inner map of that value. *)
Theorem unknown_value_panics
    (s0 s1 s2 : State World) (cs : list (Call World)) (rs : list (option error))
    (values : list Value) (v : Value) (cb : Callback World) :
  NewCapabilities false s0 = Ret None s1 →
  execAll cs s1 = Ret rs s2 →
  v ∈ values → (MaxBits ≤ v)%nat →
  (∃ s', Require values s2 = Panic nilMapAssignment s') ∧
  (∃ s', Unrequire values s2 = Panic nilMapAssignment s') ∧
  (∃ s', RunRequested cb values s2 = Panic nilMapAssignment s').
Proof.
  intros E0 E1 Hin Hv.
  unfold NewCapabilities in E0. apply bind_inv in E0 as ([] & s & [= <-] & E0).
  apply initialized_manager in E0 as (Hd & _ & _ & Hb & Hl). simpl in Hb.
  apply preservesRet_execAll in E1 as [(Hd2 & Hb2 & _) Hl2].
  rewrite Hb in Hb2. rewrite Hl in Hl2.
  assert (v ∉ dom (all (Caps s2))) as Hnin.
  { rewrite Hd2, Hd. lia. }
  pose (sl := emitted EvLock (with_Caps (with_lock (Some (mkMutex true))) s2)).
  assert (∀ t b, t = Required ∨ t = Requested →
    ∃ s', forRange (assign t b) values sl = Panic nilMapAssignment s' ∧ quiet sl s')
    as Hpanic.
  { intros t b Ht. by apply (forRange_assign_unknown t b values sl v). }
  split_and!.
  - destruct (Hpanic Required true) as (s' & E & _); [by left|].
    exists s'. unfold Require. unfold mbind at 1, M_bind at 1, bind, getCaps.
    rewrite Hb2. apply mutator_unknown; [done|].
    unfold set. by rewrite (bind_Panic _ _ _ _ _ E).
  - destruct (Hpanic Required false) as (s' & E & _); [by left|].
    exists s'. unfold Unrequire. unfold mbind at 1, M_bind at 1, bind, getCaps.
    rewrite Hb2. apply mutator_unknown; [done|].
    unfold unset. by rewrite (bind_Panic _ _ _ _ _ E).
  - destruct (Hpanic Requested true) as (s' & E & [_ Hl']); [by right|].
    exists (emitted EvUnlock (with_Caps (with_lock (Some (mkMutex false))) s')).
    unfold RunRequested; cbv zeta. unfold mbind at 1, M_bind at 1, bind, getCaps.
    rewrite Hb2; simpl. rewrite (bind_Ret _ _ _ _ _ (Lock_free _ Hl2)).
    unfold deferring. unfold set at 1.
    rewrite (bind_Panic _ _ _ _ _ (bind_Panic _ _ _ _ _ E)).
    by rewrite (Unlock_held s' Hl').
Qed.

(** ** [apply] *)

Lemma GetFlag_SetFlag c b k k' :
  GetFlag (SetFlag c Effective b k) Effective k'
  = if decide (k' = k) then b else GetFlag c Effective k'.
Proof.
  unfold GetFlag, SetFlag, flip; simpl.
  destruct (decide (k' = k)) as [->|Hne]; destruct b.
  - apply bool_decide_eq_true. set_solver.
  - apply bool_decide_eq_false. set_solver.
  - apply bool_decide_ext. set_solver.
  - apply bool_decide_ext. set_solver.
Qed.

Lemma effectiveOf_cons t k v kvs c0 :
  effectiveOf t ((k, v) :: kvs) c0
  = effectiveOf t kvs (SetFlag c0 Effective (default false (v !! t)) k).
Proof. reflexivity. Qed.

Lemma effectiveOf_other t kvs c0 k :
  k ∉ kvs.*1 → GetFlag (effectiveOf t kvs c0) Effective k = GetFlag c0 Effective k.
Proof.
  revert c0. induction kvs as [|[k' v] kvs IH]; intros c0 Hk; [done|].
  rewrite fmap_cons in Hk. apply not_elem_of_cons in Hk as [Hne Hk].
  rewrite effectiveOf_cons, IH, GetFlag_SetFlag by done.
  by rewrite decide_False.
Qed.

Lemma effectiveOf_column t kvs c0 k m :
  NoDup kvs.*1 → (k, m) ∈ kvs →
  GetFlag (effectiveOf t kvs c0) Effective k = default false (m !! t).
Proof.
  revert c0. induction kvs as [|[k' v] kvs IH]; intros c0 Hnd Hin.
  - by apply elem_of_nil in Hin.
  - rewrite fmap_cons in Hnd. apply NoDup_cons in Hnd as [Hk' Hnd].
    rewrite effectiveOf_cons.
    apply elem_of_cons in Hin as [[= -> ->]|Hin].
    + rewrite effectiveOf_other, GetFlag_SetFlag by done. by rewrite decide_True.
    + by apply IH.
Qed.

Lemma applyRange_Some t kvs (s : State World) c0 :
  have (Caps s) = Some c0 →
  ∃ new, applyRange t kvs s
         = Ret None (mkState (with_have (Some (effectiveOf t kvs c0)) (Caps s))
                             (world s) (new ++ trace s))
         ∧ forallb isDebug new = true.
Proof.
  revert s c0. induction kvs as [|[k v] kvs IH]; intros s c0 Hc.
  - exists []. split; [|done]. simpl. unfold mret, M_ret, ret.
    destruct s as [c w tr]; destruct c; simpl in *. by subst.
  - cbn [applyRange]. set (vt := default false (v !! t)).
    set (sd := if vt then emitted (EvDebug "enabling") s else s).
    assert ((if vt then debug "enabling" else mret tt) s = Ret tt sd) as Ed
      by (unfold sd; by destruct vt).
    assert (have (Caps sd) = Some c0) as Hd by (unfold sd; by destruct vt).
    rewrite (bind_Ret _ _ _ _ _ Ed).
    assert (haveSetFlag Effective vt k sd
            = Ret None (with_Caps (with_have (Some (SetFlag c0 Effective vt k))) sd)) as Ef
      by (unfold haveSetFlag; by rewrite Hd).
    rewrite (bind_Ret _ _ _ _ _ Ef).
    destruct (IH (with_Caps (with_have (Some (SetFlag c0 Effective vt k))) sd)
                 (SetFlag c0 Effective vt k) eq_refl) as (new & E & Hn).
    exists (new ++ (if vt then [EvDebug "enabling"] else [])). split.
    + rewrite E, effectiveOf_cons. fold vt.
      unfold sd. destruct vt; simpl; [by rewrite <- app_assoc | by rewrite app_nil_r].
    + rewrite forallb_app, Hn. by destruct vt.
Qed.

Lemma debug_events (dbg : list Event) :
  forallb isDebug dbg = true →
  existsb refusal dbg = false ∧
  existsb isCallback dbg = false ∧
  ∀ tr, lastCommit (dbg ++ tr) = lastCommit tr.
Proof.
  induction dbg as [|e dbg IH]; [done|].
  simpl. intros [He Hd]%andb_prop. destruct (IH Hd) as (H1 & H2 & H3).
  by destruct e.
Qed.

(** [apply] always returns.  It leaves the table, the flags and the mutex
    alone and runs no callback.  When it returns [nil] no call was refused
    and its last event is the commit of a snapshot whose effective flags
    are column [t] of the table; when it returns an error some call was
    refused and nothing was committed. *)
Lemma apply_Ret t (s : State World) :
  ∃ r s' new,
    apply t s = Ret r s' ∧
    trace s' = new ++ trace s ∧
    all (Caps s') = all (Caps s) ∧
    bypass (Caps s') = bypass (Caps s) ∧
    lock (Caps s') = lock (Caps s) ∧
    existsb isCallback new = false ∧
    match r with
    | None =>
        existsb refusal new = false ∧
        ∃ c new', new = EvSetProc c true :: new' ∧
          ∀ k m, all (Caps s) !! k = Some m →
                 GetFlag c Effective k = default false (m !! t)
    | Some _ =>
        existsb refusal new = true ∧
        ∀ tr, lastCommit (new ++ tr) = lastCommit tr
    end.
Proof.
  unfold apply.
  destruct (GetPID (world s)) as [[e|c0] w] eqn:Eg.
  - exists (Some (couldNotGetProc e)),
      (emitted (EvGetPID false) (with_world w (with_Caps (with_have None) s))),
      [EvGetPID false].
    split; [|by split_and!].
    assert (getProc s = Ret (Some (couldNotGetProc e))
      (emitted (EvGetPID false) (with_world w (with_Caps (with_have None) s)))) as E1
      by (unfold getProc; by rewrite Eg).
    by rewrite (bind_Ret _ _ _ _ _ E1).
  - set (s1 := emitted (EvGetPID true) (with_world w (with_Caps (with_have (Some c0)) s))).
    assert (getProc s = Ret None s1) as E1 by (unfold getProc; by rewrite Eg).
    rewrite (bind_Ret _ _ _ _ _ E1).
    set (s2 := emitted (EvDebug "capabilities change") s1).
    rewrite (bind_Ret (debug "capabilities change") _ s1 tt s2 eq_refl).
    rewrite (bind_Ret getCaps _ s2 (Caps s2) s2 eq_refl).
    destruct (applyRange_Some t (map_to_list (all (Caps s2))) s2 c0 eq_refl)
      as (newR & E3 & HnR).
    rewrite (bind_Ret _ _ _ _ _ E3).
    destruct (debug_events _ HnR) as (HR1 & HR2 & HR3).
    set (cf := effectiveOf t (map_to_list (all (Caps s2))) c0).
    unfold setProc; simpl.
    assert (∀ k m, all (Caps s) !! k = Some m →
                   GetFlag cf Effective k = default false (m !! t)) as Hcol.
    { intros k m Hk. apply effectiveOf_column.
      - apply NoDup_fst_map_to_list.
      - by apply elem_of_map_to_list. }
    destruct (SetProc cf w) as [[e|] w'].
    + eexists _, _, (EvSetProc cf false :: newR ++ [EvDebug "capabilities change"; EvGetPID true]).
      split; [reflexivity|]. simpl. split_and!; try done.
      * by rewrite <- app_assoc.
      * rewrite existsb_app, HR2. done.
      * intros tr. by rewrite <- app_assoc, HR3.
    + eexists _, _, (EvSetProc cf true :: newR ++ [EvDebug "capabilities change"; EvGetPID true]).
      split; [reflexivity|]. simpl. split_and!; try done.
      * by rewrite <- app_assoc.
      * rewrite existsb_app, HR2. done.
      * rewrite existsb_app, HR1. done.
      * eauto.
Qed.

Lemma apply_nil_active t (s s' : State World) :
  apply t s = Ret None s' → active t s' = true.
Proof.
  intros E. destruct (apply_Ret t s) as (r & s_ & new & E' & Ht & Ha & _ & _ & _ & Hr).
  rewrite E in E'. injection E' as <- <-.
  destruct Hr as (_ & c & new' & -> & Hcol).
  unfold active. rewrite Ht. simpl. apply forallb_forall.
  intros [k m] Hin. apply list_elem_of_In, elem_of_map_to_list in Hin. rewrite Ha in Hin.
  apply bool_decide_eq_true. simpl. by apply Hcol.
Qed.

(** ** [set] and [unset] *)

Lemma assign_Ret t b v (s s' : State World) :
  assign t b v s = Ret tt s' →
  ∃ m, all (Caps s) !! v = Some m ∧
       s' = with_Caps (with_all (<[v := <[t := b]> m]> (all (Caps s)))) s.
Proof.
  unfold assign. destruct (all (Caps s) !! v) as [m|]; [|done].
  intros [= <-]. eauto.
Qed.

Lemma forRange_assign_Ret t b (values : list Value) (s s' : State World) :
  forRange (assign t b) values s = Ret tt s' →
  world s' = world s ∧ trace s' = trace s ∧
  have (Caps s') = have (Caps s) ∧ bypass (Caps s') = bypass (Caps s) ∧
  initialized (Caps s') = initialized (Caps s) ∧ lock (Caps s') = lock (Caps s) ∧
  dom (all (Caps s')) = dom (all (Caps s)) ∧
  (∀ v, v ∈ values → v ∈ dom (all (Caps s))) ∧
  ∀ v t', Membership (Caps s') v t'
          = if decide (v ∈ values ∧ t' = t) then b else Membership (Caps s) v t'.
Proof.
  revert s. induction values as [|x values IH]; intros s E.
  - injection E as <-. split_and!; try done.
    intros v Hv. by apply elem_of_nil in Hv.
  - cbn [forRange] in E. apply bind_inv in E as ([] & s1 & E1 & E).
    apply assign_Ret in E1 as (m & Hx & ->).
    apply IH in E as (Hw & Ht & Hh & Hb & Hi & Hl & Hd & Hk & Hm).
    assert (dom (<[x := <[t := b]> m]> (all (Caps s))) = dom (all (Caps s))) as Hdx.
    { rewrite dom_insert_L. apply elem_of_dom_2 in Hx. set_solver. }
    split_and!; try done.
    + by rewrite Hd.
    + intros v [->|Hv]%elem_of_cons; [by apply elem_of_dom_2 in Hx|].
      rewrite <- Hdx. by apply Hk.
    + intros v t'. rewrite Hm.
      change (Caps (with_Caps _ s)) with
        (with_all (<[x := <[t := b]> m]> (all (Caps s))) (Caps s)).
      rewrite Membership_assign by done.
      destruct (decide (v ∈ values ∧ t' = t)) as [[Hv ->]|Hn].
      * rewrite decide_True; [done | split; [set_solver | done]].
      * destruct (decide (v = x ∧ t' = t)) as [[-> ->]|Hn'].
        -- rewrite decide_True; [done | split; [set_solver | done]].
        -- rewrite decide_False; [done|].
           intros [[->|Hv]%elem_of_cons ->]; naive_solver.
Qed.

Lemma forRange_assign_known t b (values : list Value) (s : State World) :
  (∀ v, v ∈ values → v ∈ dom (all (Caps s))) →
  ∃ s', forRange (assign t b) values s = Ret tt s'.
Proof.
  revert s. induction values as [|x values IH]; intros s Hk.
  - by exists s.
  - cbn [forRange].
    destruct (all (Caps s) !! x) as [m|] eqn:Hx.
    + assert (assign t b x s
              = Ret tt (with_Caps (with_all (<[x := <[t := b]> m]> (all (Caps s)))) s))
        as E1 by (unfold assign; by rewrite Hx).
      rewrite (bind_Ret _ _ _ _ _ E1). apply IH.
      intros v Hv. simpl. rewrite dom_insert_L. set_solver.
    + exfalso. apply not_elem_of_dom in Hx. apply Hx, Hk. set_solver.
Qed.

(** ** Run-in-ring methods *)

Lemma bind_ext {A B} (m : M World A) (k k' : A → M World B) s :
  (∀ a s', k a s' = k' a s') → (m ≫= k) s = (m ≫= k') s.
Proof. intros H. unfold mbind, M_bind, bind. by destruct (m s). Qed.

Lemma deferring_ext {A} (d : M World unit) (body body' : M World A) s :
  body s = body' s → deferring d body s = deferring d body' s.
Proof. intros H. unfold deferring. by rewrite H. Qed.

(** With bypass inactive each method is [elevated] run with the mutex
    held. *)
Lemma run_elevated op (cb : Callback World) (s : State World) :
  bypass (Caps s) = false →
  run op cb s = (Lock ;; deferring Unlock (elevated op cb)) s.
Proof.
  intros Hb. destruct op as [| |values]; simpl.
  - unfold RunPrivileged; cbv zeta.
    rewrite (bind_Ret getCaps _ s (Caps s) s eq_refl), Hb. simpl negb. cbv iota.
    apply bind_ext. intros _ s'. by apply deferring_ext.
  - unfold RunRequired; cbv zeta.
    rewrite (bind_Ret getCaps _ s (Caps s) s eq_refl), Hb. simpl negb. cbv iota.
    apply bind_ext. intros _ s'. by apply deferring_ext.
  - unfold RunRequested; cbv zeta.
    rewrite (bind_Ret getCaps _ s (Caps s) s eq_refl), Hb. simpl negb. cbv iota.
    apply bind_ext. intros _ s'. apply deferring_ext.
    unfold elevated, set, unset, stage, unstage, ringOf.
    unfold mbind, M_bind, bind, mret, M_ret, ret.
    destruct (forRange (assign Requested true) values s') as [[] s1| |]; [|done|done].
    destruct (apply Requested s1) as [[e|] s2| |]; [done| |done|done].
    by destruct (forRange (assign Requested false) values s2).
Qed.

Lemma preserves_stage op : preserves quiet (stage op : M World _).
Proof.
  destruct op; simpl; try (intros s; reflexivity).
  prange. apply preserves_assign. by right.
Qed.

Lemma preserves_unstage op : preserves quiet (unstage op : M World _).
Proof.
  destruct op; simpl; try (intros s; reflexivity).
  prange. apply preserves_assign. by right.
Qed.

Lemma quiet_Ret {A} (m : M World A) s a s' :
  preserves quiet m → m s = Ret a s' → quiet s s'.
Proof. intros H E. by apply (preserves_preservesRet quiet m H s a s'). Qed.

Lemma quiet_dom (s s' : State World) :
  quiet s s' → dom (all (Caps s')) = dom (all (Caps s)).
Proof. by intros [(? & _) _]. Qed.

Lemma quiet_bypass (s s' : State World) :
  quiet s s' → bypass (Caps s') = bypass (Caps s).
Proof. by intros [(_ & ? & _) _]. Qed.

Lemma quiet_lock (s s' : State World) :
  quiet s s' → lock (Caps s') = lock (Caps s).
Proof. by intros [_ ?]. Qed.

(** What was staged can be cleared: the keys of the table do not move. *)
Lemma unstage_after_stage op (s s0 s1 : State World) :
  stage op s = Ret tt s0 → quiet s0 s1 → ∃ s1', unstage op s1 = Ret tt s1'.
Proof.
  intros Es Hq. destruct op as [| |values]; simpl in *; try by eexists.
  apply forRange_assign_Ret in Es as (_ & _ & _ & _ & _ & _ & Hd & Hk & _).
  apply forRange_assign_known. intros v Hv.
  rewrite (quiet_dom _ _ Hq), Hd. by apply Hk.
Qed.

(** C1. With bypass inactive, once the mutex is taken, the operation's
    column staged and its ring applied with success: the callback runs,
    then [apply Unprivileged] is run from the state the callback left,
    whatever the callback returned; the method returns the error of that
    restoring apply if it failed, and the callback's result only if it
    succeeded. *)
Theorem callback_result_after_restore
    (op : RingOp) (cb : Callback World) (s sl s0 s1 : State World) :
  bypass (Caps s) = false →
  Lock s = Ret tt sl →
  stage op sl = Ret tt s0 →
  apply (ringOf op) s0 = Ret None s1 →
  ∃ s1' errCb s2 r s3 s4,
    unstage op s1 = Ret tt s1' ∧
    call cb s1' = Ret errCb s2 ∧
    apply Unprivileged s2 = Ret r s3 ∧
    Unlock s3 = Ret tt s4 ∧
    run op cb s = Ret (match r with Some e => Some e | None => errCb end) s4.
Proof.
  intros Hb El Es Ea.
  pose proof (Lock_Ret _ _ El) as [Hfree Hsl].
  assert (lock (Caps sl) = Some (mkMutex true)) as Hl by (by subst sl).
  assert (bypass (Caps sl) = false) as Hbl by (by subst sl).
  pose proof (quiet_Ret _ _ _ _ (preserves_stage op) Es) as Q0.
  pose proof (quiet_Ret _ _ _ _ (preserves_apply _) Ea) as Q1.
  destruct (unstage_after_stage op sl s0 s1 Es Q1) as (s1' & Eu).
  pose proof (quiet_Ret _ _ _ _ (preserves_unstage op) Eu) as Q1'.
  destruct (call cb s1') as [errCb s2| |] eqn:Ec;
    [|unfold call in Ec; by destruct (cb (world s1'))..].
  pose proof (quiet_Ret _ _ _ _ (preserves_call cb) Ec) as Q2.
  destruct (apply_Ret Unprivileged s2) as (r & s3 & new & Er & _).
  pose proof (quiet_Ret _ _ _ _ (preserves_apply _) Er) as Q3.
  assert (quiet sl s2) as Q by (do 3 (etrans; [eassumption|]); done).
  assert (lock (Caps s3) = Some (mkMutex true)) as Hl3.
  { rewrite (quiet_lock _ _ Q3), (quiet_lock _ _ Q). done. }
  assert (bypass (Caps s2) = false) as Hb2.
  { rewrite (quiet_bypass _ _ Q). done. }
  eexists s1', errCb, s2, r, s3, _. split_and!; try done.
  { by apply Unlock_held. }
  rewrite run_elevated by done.
  rewrite (bind_Ret _ _ _ _ _ El). unfold deferring.
  assert (elevated op cb sl
          = Ret (match r with Some e => Some e | None => errCb end) s3) as ->.
  { unfold elevated, bind. rewrite Es, Ea, Eu, Ec. unfold getCaps.
    rewrite Hb2. simpl. rewrite Er. by destruct r. }
  by rewrite (Unlock_held _ Hl3).
Qed.

(** ** The active ring *)

Lemma preserves_elevated_op op (cb : Callback World) : preserves quiet (elevated op cb).
Proof.
  unfold elevated.
  apply (preserves_bind quiet (stage op)); [apply preserves_stage | intros _].
  apply (preserves_bind quiet (apply (ringOf op))); [apply preserves_apply |].
  intros [e|]; [intros s; reflexivity|].
  apply (preserves_bind quiet (unstage op)); [apply preserves_unstage | intros _].
  apply (preserves_bind quiet (call cb)); [apply preserves_call | intros errCb].
  apply (preserves_bind quiet getCaps); [intros s; reflexivity | intros c].
  destruct (negb (bypass c)); [|intros s; reflexivity].
  apply (preserves_bind quiet (apply Unprivileged)); [apply preserves_apply |].
  intros [e|] s; reflexivity.
Qed.

Lemma apply_error_refused t (s s' : State World) e :
  apply t s = Ret (Some e) s' →
  ∃ new, trace s' = new ++ trace s ∧
         existsb refusal new = true ∧
         existsb isCallback new = false ∧
         ∀ tr, lastCommit (new ++ tr) = lastCommit tr.
Proof.
  intros E. destruct (apply_Ret t s) as (r & s_ & new & E' & Ht & _ & _ & _ & Hc & Hr).
  rewrite E in E'. injection E' as <- <-. destruct Hr as [Hr Hl]. eauto.
Qed.



Lemma stage_Ret op (s s0 : State World) :
  stage op s = Ret tt s0 → trace s0 = trace s.
Proof.
  destruct op as [| |values]; simpl; try by intros [= <-].
  intros E. by apply forRange_assign_Ret in E as (_ & ? & _).
Qed.

Lemma unstage_Ret op (s s0 : State World) :
  unstage op s = Ret tt s0 → trace s0 = trace s.
Proof.
  destruct op as [| |values]; simpl; try by intros [= <-].
  intros E. by apply forRange_assign_Ret in E as (_ & ? & _).
Qed.

Lemma call_Ret (cb : Callback World) (s s2 : State World) errCb :
  call cb s = Ret errCb s2 → trace s2 = EvCallback errCb :: trace s.
Proof.
  unfold call. destruct (cb (world s)) as [r w]. by intros [= <- <-].
Qed.

(** Staging moves neither the keys nor the Unprivileged column: a ring
    that was Unprivileged stays so as long as nothing is committed. *)
Lemma active_frame (s s' : State World) :
  frame s s' →
  lastCommit (trace s') = lastCommit (trace s) →
  active Unprivileged s = true →
  active Unprivileged s' = true.
Proof.
  intros (Hd & _ & _ & _ & Hu & _) Hc. unfold active. rewrite Hc.
  destruct (lastCommit (trace s)) as [c|]; [|done].
  rewrite !forallb_forall. intros Hs [k m'] Hin.
  apply list_elem_of_In, elem_of_map_to_list in Hin.
  assert (k ∈ dom (all (Caps s))) as [m Hm]%elem_of_dom.
  { rewrite <- Hd. by apply elem_of_dom_2 in Hin. }
  specialize (Hs (k, m)). specialize (Hu k). unfold Membership in Hu.
  rewrite Hin, Hm in Hu. simpl in *. rewrite Hu. apply Hs.
  by apply list_elem_of_In, elem_of_map_to_list.
Qed.


(** ** The Requested column *)

(** On every path of [RunRequested] that reaches the callback the column
    is cleared when the call returns.  The path that does not is the one
    where [apply Requested] fails. *)
Lemma requested_cleared_once_callback_ran
    (cb : Callback World) (values : list Value) (s s' : State World)
    (r : option error) (new : list Event) (x : Value) :
  bypass (Caps s) = false →
  RunRequested cb values s = Ret r s' →
  trace s' = new ++ trace s →
  existsb isCallback new = true →
  x ∈ values →
  Membership (Caps s') x Requested = false.
Proof.
  intros Hb E Ht Hcb Hx.
  change (RunRequested cb values s) with (run (OpRequested values) cb s) in E.
  rewrite run_elevated in E by done.
  apply guarded_Ret in E as (Hfree & s4 & E & ->); [|apply preserves_elevated_op].
  set (sl := emitted EvLock (with_Caps (with_lock (Some (mkMutex true))) s)) in *.
  unfold elevated in E.
  apply bind_inv in E as ([] & s0 & Es & E).
  apply bind_inv in E as (err & s1 & Ea & E).
  pose proof (stage_Ret _ _ _ Es) as T0.
  destruct err as [e|].
  { injection E as _ <-. exfalso.
    apply apply_error_refused in Ea as (n1 & T1 & _ & Hc & _).
    simpl in Ht. rewrite T1, T0 in Ht. simpl in Ht.
    assert (new = (EvUnlock :: n1) ++ [EvLock]) as ->.
    { apply (app_inv_tail (trace s)). rewrite <- Ht. simpl. by rewrite <- app_assoc. }
    rewrite existsb_app in Hcb. simpl in Hcb. by rewrite Hc in Hcb. }
  apply bind_inv in E as ([] & s1' & Eu & E).
  apply bind_inv in E as (errCb & s2 & Ec & E).
  apply bind_inv in E as (c & s2' & [= <- <-] & E).
  simpl in Eu. apply forRange_assign_Ret in Eu as (_ & _ & _ & _ & _ & _ & _ & _ & Hm).
  assert (all (Caps s2) = all (Caps s1')) as Ha2.
  { unfold call in Ec. destruct (cb (world s1')). by injection Ec as _ <-. }
  assert (all (Caps s4) = all (Caps s2)) as Ha4.
  { destruct (negb (bypass (Caps s2))).
    - apply bind_inv in E as (err & s3 & Er & E).
      destruct (apply_Ret Unprivileged s2) as (r' & s3' & n3 & Er' & _ & Ha & _).
      rewrite Er in Er'. injection Er' as <- <-.
      destruct err; injection E as _ <-; exact Ha.
    - by injection E as _ <-. }
  specialize (Hm x Requested). rewrite decide_True in Hm by done.
  unfold Membership in *. simpl. by rewrite Ha4, Ha2.
Qed.

(** ** Bypass mode *)

Lemma exec_bypass (c : Call World) (s : State World) :
  bypass (Caps s) = true →
  exec c s = Ret (passOne c (world s)).1.1
                 (mkState (Caps s) (passOne c (world s)).1.2
                          ((passOne c (world s)).2 ++ trace s)).
Proof.
  intros Hb.
  destruct c as [values|values|[| |values] cb]; simpl.
  - unfold Require, mbind, M_bind, bind, getCaps. rewrite Hb. by destruct s.
  - unfold Unrequire, mbind, M_bind, bind, getCaps. rewrite Hb. by destruct s.
  - unfold RunPrivileged, mbind, M_bind, bind, call, getCaps. rewrite Hb; simpl.
    destruct (cb (world s)) as [errCb w]; simpl. by rewrite Hb.
  - unfold RunRequired, mbind, M_bind, bind, call, getCaps. rewrite Hb; simpl.
    destruct (cb (world s)) as [errCb w]; simpl. by rewrite Hb.
  - unfold RunRequested, mbind, M_bind, bind, call, getCaps. rewrite Hb; simpl.
    destruct (cb (world s)) as [errCb w]; simpl. by rewrite Hb.
Qed.

Lemma passthrough_cons (c : Call World) cs w :
  passthrough (c :: cs) w
  = ((passOne c w).1.1 :: (passthrough cs (passOne c w).1.2).1.1,
     (passthrough cs (passOne c w).1.2).1.2,
     (passthrough cs (passOne c w).1.2).2 ++ (passOne c w).2).
Proof.
  cbn [passthrough]. destruct (passOne c w) as [[r w1] ev]; simpl.
  by destruct (passthrough cs w1) as [[rs w'] evs].
Qed.

Lemma execAll_bypass (cs : list (Call World)) (s : State World) :
  bypass (Caps s) = true →
  execAll cs s = Ret (passthrough cs (world s)).1.1
                     (mkState (Caps s) (passthrough cs (world s)).1.2
                              ((passthrough cs (world s)).2 ++ trace s)).
Proof.
  revert s. induction cs as [|c cs IH]; intros s Hb.
  - simpl. unfold ret. by destruct s.
  - cbn [execAll]. rewrite passthrough_cons.
    unfold bind at 1. rewrite (exec_bypass c s Hb).
    unfold bind at 1. rewrite IH by done.
    unfold ret. cbn [Caps world trace fst snd]. by rewrite app_assoc.
Qed.

Lemma passthrough_callbacks (cs : list (Call World)) w :
  forallb isCallback (passthrough cs w).2 = true.
Proof.
  revert w. induction cs as [|c cs IH]; intros w; [done|].
  rewrite passthrough_cons. simpl. rewrite forallb_app, IH. simpl.
  destruct c as [values|values|op cb]; simpl; [done | done |].
  by destruct (cb w).
Qed.

(** C7. [initialize true] only sets the bypass flag.  From then on any
    sequence of [Require], [Unrequire] and run-in-ring calls returns, for
    each [Require]/[Unrequire], [nil], and for each run-in-ring call,
    what its callback returned; the manager is left as it was, the world is
    what the callbacks made of it, and the only events are the callbacks
    themselves: no query, no commit, no bounding-set drop, no lock. *)
Theorem bypass_is_passthrough (s0 : State World) (cs : list (Call World)) :
  initialize true s0 = Ret None (with_Caps (with_bypass true) s0) ∧
  execAll cs (with_Caps (with_bypass true) s0)
  = Ret (passthrough cs (world s0)).1.1
        (mkState (with_bypass true (Caps s0))
                 (passthrough cs (world s0)).1.2
                 ((passthrough cs (world s0)).2 ++ trace s0)) ∧
  forallb isCallback (passthrough cs (world s0)).2 = true.
Proof.
  split_and!.
  - reflexivity.
  - by rewrite execAll_bypass.
  - apply passthrough_callbacks.
Qed.

(** ** Name resolution *)

Lemma scanValues_filter given vs acc found :
  scanValues given vs acc found
  = (acc ++ List.filter (λ v, String.eqb (capString v) given) vs,
     found || existsb (λ v, String.eqb (capString v) given) vs).
Proof.
  revert acc found. induction vs as [|v vs IH]; intros acc found; simpl.
  - by rewrite app_nil_r, orb_false_r.
  - destruct (String.eqb (capString v) given); rewrite IH; simpl.
    + by rewrite <- app_assoc, orb_true_r.
    + done.
Qed.

Lemma existsb_resolvable given :
  existsb (λ v, String.eqb (capString v) given) (seq 0 MaxBits) = true ↔ resolvable given.
Proof.
  rewrite existsb_exists. unfold resolvable. split.
  - intros (v & Hin & Hv). apply in_seq in Hin. apply String.eqb_eq in Hv.
    exists v. split; [lia | done].
  - intros (v & Hlt & Hv). exists v. split; [apply in_seq; lia | by apply String.eqb_eq].
Qed.

Lemma ReqByStringFrom_spec (values : list string) (acc : list Value) :
  (∃ caps, ReqByStringFrom values acc = (acc ++ caps, None) ∧
           Forall resolvable values ∧
           (∀ name, name ∈ values → ∃ v, v ∈ caps ∧ v < MaxBits ∧ capString v = name) ∧
           (∀ v, v ∈ caps → v < MaxBits ∧ capString v ∈ values))
  ∨ (∃ pre bad post, values = pre ++ bad :: post ∧
           Forall resolvable pre ∧ ¬ resolvable bad ∧
           ReqByStringFrom values acc = ([], Some (couldNotFindCapability bad))).
Proof.
  revert acc. induction values as [|given rest IH]; intros acc.
  - left. exists []. simpl. rewrite app_nil_r. split_and!; try done.
    + intros name Hn. by apply elem_of_nil in Hn.
    + intros v Hv. by apply elem_of_nil in Hv.
  - cbn [ReqByStringFrom]. rewrite scanValues_filter. simpl orb.
    set (hits := List.filter (λ v, String.eqb (capString v) given) (seq 0 MaxBits)).
    assert (∀ v, v ∈ hits ↔ v < MaxBits ∧ capString v = given) as Hhits.
    { intros v. unfold hits. rewrite list_elem_of_In, filter_In, in_seq, String.eqb_eq.
      intuition lia. }
    destruct (existsb _ _) eqn:Hex.
    + apply existsb_resolvable in Hex.
      destruct (IH (acc ++ hits)) as
        [(caps & E & Hall & Hname & Hcaps) | (pre & bad & post & -> & Hpre & Hbad & E)].
      * left. exists (hits ++ caps). rewrite E, app_assoc. split_and!; try done.
        -- by constructor.
        -- intros name [->|Hn]%elem_of_cons.
           ++ destruct Hex as (v & Hlt & Hv). exists v. split_and!; try done.
              apply elem_of_app. left. by apply Hhits.
           ++ destruct (Hname name Hn) as (v & Hv & ?). exists v. split; [|done].
              apply elem_of_app. by right.
        -- intros v [Hv|Hv]%elem_of_app.
           ++ apply Hhits in Hv as [? <-]. split; [done | by left].
           ++ destruct (Hcaps v Hv) as [? ?]. split; [done | by right].
      * right. exists (given :: pre), bad, post. split_and!; try done. by constructor.
    + right. exists [], given, rest. split_and!; try done.
      intros Hr. apply existsb_resolvable in Hr. congruence.
Qed.

(** C9. [ReqByString] either returns, with no error, a list that has a
    known capability for every name asked (and nothing else), or returns
    the nil list with the error that names the first name, in the order
    given, that no known capability answers to.  It is a function of its
    arguments and the platform's names alone: the manager is not among
    what it can reach. *)
Theorem ReqByString_resolves_or_names_first_unknown (values : list string) :
  (∃ caps, ReqByString values = (caps, None) ∧
           Forall resolvable values ∧
           (∀ name, name ∈ values → ∃ v, v ∈ caps ∧ v < MaxBits ∧ capString v = name) ∧
           (∀ v, v ∈ caps → v < MaxBits ∧ capString v ∈ values))
  ∨ (∃ pre bad post, values = pre ++ bad :: post ∧
           Forall resolvable pre ∧ ¬ resolvable bad ∧
           ReqByString values = ([], Some (couldNotFindCapability bad))).
Proof. exact (ReqByStringFrom_spec values []). Qed.

(** ** Policy bootstrap *)

Lemma requiredBy_nil (s : State World) : requiredBy [] s s.
Proof.
  unfold requiredBy. by split_and!.
Qed.

Lemma requiredBy_app vs1 vs2 (s s1 s2 : State World) :
  requiredBy vs1 s s1 → requiredBy vs2 s1 s2 → requiredBy (vs1 ++ vs2) s s2.
Proof.
  intros (Hw1 & Hh1 & Hb1 & Hl1 & Hd1 & Hm1) (Hw2 & Hh2 & Hb2 & Hl2 & Hd2 & Hm2).
  unfold requiredBy. split_and!; try congruence.
  intros v t. rewrite Hm2, Hm1.
  destruct (decide (v ∈ vs2 ∧ t = Required)) as [[H2 ->]|N2].
  - rewrite decide_True; [done|]. split; [|done]. apply elem_of_app. by right.
  - destruct (decide (v ∈ vs1 ∧ t = Required)) as [[H1 ->]|N1].
    + rewrite decide_True; [done|]. split; [|done]. apply elem_of_app. by left.
    + rewrite decide_False; [done|]. intros [[?|?]%elem_of_app ->]; naive_solver.
Qed.

Lemma requiredBy_emitted vs (s s' : State World) e :
  requiredBy vs s s' → requiredBy vs s (emitted e s').
Proof. done. Qed.

Lemma Require_known values (s : State World) :
  bypass (Caps s) = false →
  lock (Caps s) = Some (mkMutex false) →
  known values s →
  ∃ s', Require values s = Ret None s' ∧ requiredBy values s s'.
Proof.
  intros Hb Hl Hk.
  set (sl := emitted EvLock (with_Caps (with_lock (Some (mkMutex true))) s)).
  destruct (forRange_assign_known Required true values sl) as (s1 & E1).
  { intros v Hv. unfold known in Hk. rewrite Forall_forall in Hk. by apply Hk. }
  pose proof (forRange_assign_Ret _ _ _ _ _ E1) as (Hw & Ht & Hh & Hb1 & Hi & Hl1 & Hd & _ & Hm).
  exists (emitted EvUnlock (with_Caps (with_lock (Some (mkMutex false))) s1)). split.
  - unfold Require. rewrite (bind_Ret getCaps _ s (Caps s) s eq_refl), Hb.
    rewrite (bind_Ret _ _ _ _ _ (Lock_free _ Hl)). fold sl.
    unfold set. rewrite (bind_Ret _ _ sl None s1).
    2: { by rewrite (bind_Ret _ _ _ _ _ E1). }
    rewrite (bind_Ret _ _ _ _ _ (Unlock_held s1 Hl1)). done.
  - unfold requiredBy. simpl. by split_and!.
Qed.

Lemma known_requiredBy vs vs' (s s' : State World) :
  requiredBy vs' s s' → known vs s → known vs s'.
Proof.
  intros (_ & _ & _ & _ & Hd & _). unfold known. by rewrite Hd.
Qed.

(** The bootstrap on a manager whose table has the capabilities it is
    about to require: it returns what the closing [apply Unprivileged]
    returns, and it has added exactly [bootstrapValues] to the Required
    column. *)
Lemma policyBootstrap_known (s : State World) :
  bypass (Caps s) = false →
  lock (Caps s) = Some (mkMutex false) →
  known (bootstrapValues (paranoidValueIn (world s)).1
                         (haveGetFlag (Caps s) Permitted BPF)) s →
  ∃ s1 r s',
    apply Unprivileged s1 = Ret r s' ∧
    policyBootstrap s = Ret r s' ∧
    ∀ v t, Membership (Caps s') v t
           = if decide (v ∈ bootstrapValues (paranoidValueIn (world s)).1
                                           (haveGetFlag (Caps s) Permitted BPF)
                        ∧ t = Required)
             then true else Membership (Caps s) v t.
Proof.
  intros Hb Hl Hk. unfold bootstrapValues, known in *.
  apply Forall_app in Hk as [Hk1 Hk]. apply Forall_app in Hk as [Hk2 Hk3].
  destruct (Require_known [IPC_LOCK; SYS_RESOURCE] s Hb Hl Hk1) as (sa & Ea & Ra).
  unfold policyBootstrap. rewrite (bind_Ret _ _ _ _ _ Ea).
  set (sb := emitted (EvReadFile perfEventParanoidPath) sa).
  assert (getKernelPerfEventParanoidValue sa = Ret (paranoidValueIn (world s)) sb) as Eb.
  { unfold getKernelPerfEventParanoidValue. destruct Ra as (-> & _). done. }
  rewrite (bind_Ret _ _ _ _ _ Eb).
  destruct (paranoidValueIn (world s)) as [paranoid err]. cbn [fst] in *.
  assert (requiredBy [IPC_LOCK; SYS_RESOURCE] s sb) as Rb by done.
  set (sc := match err with
             | Some _ => emitted (EvDebug "could not get perf_event_paranoid, assuming highest") sb
             | None => sb
             end).
  assert ((if err is Some _
           then debug "could not get perf_event_paranoid, assuming highest"
           else mret tt) sb = Ret tt sc) as Ec by (unfold sc; by destruct err).
  rewrite (bind_Ret _ _ _ _ _ Ec).
  assert (requiredBy [IPC_LOCK; SYS_RESOURCE] s sc) as Rc by (unfold sc; by destruct err).
  assert (∃ sd,
    (if (2 <? paranoid)%Z
     then
       debug "paranoid: Value in /proc/sys/kernel/perf_event_paranoid is > 2" ;;
       debug "paranoid: Tracee needs CAP_SYS_ADMIN instead of CAP_BPF + CAP_PERFMON" ;;
       debug "paranoid: To change that behavior set perf_event_paranoid to 2 or less." ;;
       _ ← Require [SYS_ADMIN] ;
       mret tt
     else mret tt) sc = Ret tt sd ∧
    requiredBy (if (2 <? paranoid)%Z then [SYS_ADMIN] else []) sc sd) as (sd & Ed & Rd).
  { destruct (2 <? paranoid)%Z.
    - set (s3 := emitted (EvDebug "paranoid: To change that behavior set perf_event_paranoid to 2 or less.")
           (emitted (EvDebug "paranoid: Tracee needs CAP_SYS_ADMIN instead of CAP_BPF + CAP_PERFMON")
           (emitted (EvDebug "paranoid: Value in /proc/sys/kernel/perf_event_paranoid is > 2") sc))).
      destruct (Require_known [SYS_ADMIN] s3) as (sd & Ed & Rd).
      + destruct Rc as (_ & _ & Hbc & _). simpl. by rewrite Hbc.
      + destruct Rc as (_ & _ & _ & Hlc & _). simpl. by rewrite Hlc.
      + by apply (known_requiredBy _ _ s sc Rc).
      + exists sd. split; [|exact Rd].
        unfold mbind, M_bind, bind, debug, emit. fold s3. by rewrite Ed.
    - exists sc. split; [done | apply requiredBy_nil]. }
  rewrite (bind_Ret _ _ _ _ _ Ed).
  pose proof (requiredBy_app _ _ _ _ _ Rc Rd) as Rcd.
  rewrite (bind_Ret getCaps _ sd (Caps sd) sd eq_refl). cbv zeta.
  assert (haveGetFlag (Caps sd) Permitted BPF = haveGetFlag (Caps s) Permitted BPF) as ->.
  { unfold haveGetFlag. destruct Rcd as (_ & Hhd & _). by rewrite Hhd. }
  set (hasBPF := haveGetFlag (Caps s) Permitted BPF) in *.
  assert (∃ se,
    (if hasBPF then Require [BPF; PERFMON] else Require [SYS_ADMIN]) sd = Ret None se ∧
    requiredBy (if hasBPF then [BPF; PERFMON] else [SYS_ADMIN]) sd se) as (se & Ee & Re).
  { assert (bypass (Caps sd) = false) as Hbd
      by (destruct Rcd as (_ & _ & Hbd & _); by rewrite Hbd).
    assert (lock (Caps sd) = Some (mkMutex false)) as Hld
      by (destruct Rcd as (_ & _ & _ & Hld & _); by rewrite Hld).
    pose proof (known_requiredBy _ _ s sd Rcd Hk3) as Hk3'.
    destruct hasBPF; by apply Require_known. }
  rewrite (bind_Ret _ _ _ _ _ Ee).
  pose proof (requiredBy_app _ _ _ _ _ Rcd Re) as (_ & _ & _ & _ & _ & Hm).
  destruct (apply_Ret Unprivileged se) as (r & s' & new & Er & _ & Ha & _).
  exists se, r, s'. split_and!; try done.
  intros v t. rewrite <- app_assoc in Hm. rewrite <- Hm.
  unfold Membership. by rewrite Ha.
Qed.

Lemma bootstrapValues_paranoid (paranoid : Z) hasBPF :
  (2 < paranoid)%Z →
  bootstrapValues paranoid hasBPF
  = [IPC_LOCK; SYS_RESOURCE; SYS_ADMIN] ++ (if hasBPF then [BPF; PERFMON] else [SYS_ADMIN]).
Proof.
  intros H. unfold bootstrapValues. apply Z.ltb_lt in H. by rewrite H.
Qed.

(** C2, amended. When the paranoia value is greater than 2 the bootstrap
    marks SYS_ADMIN as Required and goes on to the check of the permitted
    set: with BPF permitted it also marks BPF and PERFMON as Required, and
    without it marks SYS_ADMIN once more.  Nothing but IPC_LOCK,
    SYS_RESOURCE, SYS_ADMIN, BPF and PERFMON is added to the ring. *)
Theorem paranoid_bootstrap_goes_on_to_bpf (s : State World) :
  bypass (Caps s) = false →
  lock (Caps s) = Some (mkMutex false) →
  (2 < (paranoidValueIn (world s)).1)%Z →
  known (bootstrapValues (paranoidValueIn (world s)).1
                         (haveGetFlag (Caps s) Permitted BPF)) s →
  ∃ r s',
    policyBootstrap s = Ret r s' ∧
    Membership (Caps s') SYS_ADMIN Required = true ∧
    (if haveGetFlag (Caps s) Permitted BPF
     then Membership (Caps s') BPF Required = true ∧
          Membership (Caps s') PERFMON Required = true
     else ∀ v, v ∉ [IPC_LOCK; SYS_RESOURCE; SYS_ADMIN] →
               Membership (Caps s') v Required = Membership (Caps s) v Required) ∧
    (∀ v, v ∉ [IPC_LOCK; SYS_RESOURCE; SYS_ADMIN; BPF; PERFMON] →
          Membership (Caps s') v Required = Membership (Caps s) v Required).
Proof.
  intros Hb Hl Hp Hk.
  destruct (policyBootstrap_known s Hb Hl Hk) as (s1 & r & s' & _ & E & Hm).
  rewrite (bootstrapValues_paranoid _ _ Hp) in Hm.
  exists r, s'. split_and!; [done| | |].
  - rewrite Hm. rewrite decide_True; [done|]. split; [set_solver | done].
  - destruct (haveGetFlag (Caps s) Permitted BPF).
    + split; rewrite Hm; (rewrite decide_True; [done|]); (split; [set_solver | done]).
    + intros v Hv. rewrite Hm. rewrite decide_False; [done|]. set_solver.
  - intros v Hv. rewrite Hm. rewrite decide_False; [done|].
    destruct (haveGetFlag (Caps s) Permitted BPF); set_solver.
Qed.

Lemma tunableUnusable_four (w : World) :
  tunableUnusable w →
  paranoidValueIn w = (4%Z, Some couldNotReadPerfEventParanoid).
Proof.
  unfold tunableUnusable, paranoidValueIn.
  destruct (ReadFile perfEventParanoidPath w) as [e|value]; [done|].
  by destruct (ParseInt (TrimSuffix value newline) 0 16).
Qed.

(** C8. When the tunable cannot be read or parsed,
    [getKernelPerfEventParanoidValue] answers 4 with its error, and the
    bootstrap carries on to its closing [apply Unprivileged], whose result
    is the only thing it can return.  The Required ring then holds
    IPC_LOCK, SYS_RESOURCE and SYS_ADMIN, and the whole table is the one
    the bootstrap builds, from the same manager, in any world where the
    tunable reads as a value greater than 2. *)
Theorem unusable_tunable_is_most_paranoid (s : State World) :
  bypass (Caps s) = false →
  lock (Caps s) = Some (mkMutex false) →
  tunableUnusable (world s) →
  known (bootstrapValues 4 (haveGetFlag (Caps s) Permitted BPF)) s →
  paranoidValueIn (world s) = (4%Z, Some couldNotReadPerfEventParanoid) ∧
  ∃ s1 r s',
    apply Unprivileged s1 = Ret r s' ∧
    policyBootstrap s = Ret r s' ∧
    Membership (Caps s') IPC_LOCK Required = true ∧
    Membership (Caps s') SYS_RESOURCE Required = true ∧
    Membership (Caps s') SYS_ADMIN Required = true ∧
    ∀ (s2 : State World) (p : Z),
      Caps s2 = Caps s →
      paranoidValueIn (world s2) = (p, None) →
      (2 < p)%Z →
      ∃ r2 s2',
        policyBootstrap s2 = Ret r2 s2' ∧
        ∀ v t, Membership (Caps s2') v t = Membership (Caps s') v t.
Proof.
  intros Hb Hl Hu Hk. pose proof (tunableUnusable_four _ Hu) as Hp.
  split; [done|].
  destruct (policyBootstrap_known s Hb Hl) as (s1 & r & s' & Ea & E & Hm).
  { by rewrite Hp. }
  rewrite Hp in Hm. cbn [fst] in Hm.
  rewrite (bootstrapValues_paranoid 4 _ eq_refl) in Hm.
  exists s1, r, s'. split_and!; [exact Ea | exact E | | | |].
  - rewrite Hm. rewrite decide_True; [done|]. split; [set_solver | done].
  - rewrite Hm. rewrite decide_True; [done|]. split; [set_solver | done].
  - rewrite Hm. rewrite decide_True; [done|]. split; [set_solver | done].
  - intros s2 p Hc Hp2 Hlt.
    destruct (policyBootstrap_known s2) as (s3 & r2 & s2' & _ & E2 & Hm2).
    + by rewrite Hc.
    + by rewrite Hc.
    + rewrite Hp2, Hc. cbn [fst]. rewrite (bootstrapValues_paranoid p _ Hlt).
      rewrite (bootstrapValues_paranoid 4 _ eq_refl) in Hk.
      unfold known in *. by rewrite Hc.
    + exists r2, s2'. split; [done|]. intros v t.
      rewrite Hm2, Hm, Hp2, Hc. cbn [fst].
      by rewrite (bootstrapValues_paranoid p _ Hlt).
Qed.

(** ** The [initialized] flag *)

#[local] Instance sameInitialized_preorder : PreOrder (@sameInitialized World).
Proof.
  split; [by intros s | intros s1 s2 s3; unfold sameInitialized; congruence].
Qed.

Lemma frame_sameInitialized {A} (m : M World A) :
  preserves frame m → preserves sameInitialized m.
Proof. intros H s. by destruct (H s) as (_ & _ & ? & _). Qed.

Lemma preserves_policyBootstrap : preserves frame (policyBootstrap : M World _).
Proof.
  unfold policyBootstrap.
  pbind; [apply preserves_Require | intros _].
  pbind; [pquiet preserves_getKernelPerfEventParanoidValue | intros [paranoid err]].
  pbind; [destruct err; [pquiet preserves_debug | pret] | intros _].
  pbind; [|intros _].
  { destruct (2 <? paranoid)%Z; [|pret].
    do 3 (pbind; [pquiet preserves_debug | intros _]).
    pbind; [apply preserves_Require | intros _; pret]. }
  pbind; [apply preserves_getCaps; apply _ | intros c].
  pbind; [destruct (haveGetFlag c Permitted BPF); apply preserves_Require | intros _].
  pquiet preserves_apply.
Qed.

(** No path through [initialize] writes the [initialized] flag. *)
Lemma initialize_keeps_initialized (b : bool) :
  preserves sameInitialized (initialize b : M World _).
Proof.
  unfold initialize. destruct b.
  - intros s. reflexivity.
  - pbind; [apply preserves_getCaps; apply _ | intros c].
    destruct (initialized c); [pret|].
    pbind; [intros s; reflexivity | intros _].
    pbind; [intros s; reflexivity | intros _].
    pbind; [prange; intros s; reflexivity | intros _].
    apply frame_sameInitialized.
    pbind; [pquiet preserves_getProc | intros [e|]; [pret|]].
    pbind; [apply preserves_getCaps; apply _ | intros c'].
    pbind; [prange; pquiet preserves_dropBound | intros _].
    pbind; [pquiet preserves_setProc | intros [e|]; [pret|]].
    apply preserves_policyBootstrap.
Qed.

(** * More of the package *)

(** ** [Require] and [Unrequire] *)

(** The shape [Require] and [Unrequire] share, when it returns. *)
Lemma table_mutator_Ret b (values : list Value) (s s' : State World) r :
  (Lock ;; err ← (forRange (assign Required b) values ;; mret (None : option error)) ;
   Unlock ;; mret err) s = Ret r s' →
  r = None ∧
  lock (Caps s) = Some (mkMutex false) ∧
  known values s ∧
  wrote Required b values s s' ∧
  trace s' = EvUnlock :: EvLock :: trace s.
Proof.
  intros E.
  apply bind_inv in E as ([] & sl & El & E). apply Lock_Ret in El as [Hfree ->].
  apply bind_inv in E as (err & s1 & E1 & E).
  apply bind_inv in E1 as ([] & s1' & E1 & E1').
  unfold mret, M_ret, ret in E1'. injection E1' as <- <-.
  apply forRange_assign_Ret in E1 as (Hw & Ht & Hh & Hb & Hi & Hl & Hd & Hk & Hm).
  apply bind_inv in E as ([] & s2 & E2 & E2').
  unfold mret, M_ret, ret in E2'. injection E2' as <- <-.
  rewrite (Unlock_held s1' Hl) in E2. injection E2 as <-.
  split_and!.
  - done.
  - done.
  - unfold known. rewrite Forall_forall. intros v Hv. by apply (Hk v).
  - unfold wrote. simpl. rewrite Hfree. by split_and!.
  - simpl. by rewrite Ht.
Qed.

Lemma table_mutator_known b (values : list Value) (s : State World) :
  lock (Caps s) = Some (mkMutex false) →
  known values s →
  ∃ s', (Lock ;; err ← (forRange (assign Required b) values ;; mret (None : option error)) ;
         Unlock ;; mret err) s = Ret None s'.
Proof.
  intros Hl Hk.
  set (sl := emitted EvLock (with_Caps (with_lock (Some (mkMutex true))) s)).
  destruct (forRange_assign_known Required b values sl) as (s1 & E1).
  { intros v Hv. unfold known in Hk. rewrite Forall_forall in Hk. by apply Hk. }
  pose proof (forRange_assign_Ret _ _ _ _ _ E1) as (_ & _ & _ & _ & _ & Hl1 & _).
  eexists.
  rewrite (bind_Ret _ _ _ _ _ (Lock_free _ Hl)). fold sl.
  rewrite (bind_Ret _ _ sl None s1); [|by rewrite (bind_Ret _ _ _ _ _ E1)].
  by rewrite (bind_Ret _ _ _ _ _ (Unlock_held s1 Hl1)).
Qed.

Lemma Require_Ret (values : list Value) (s s' : State World) r :
  bypass (Caps s) = false →
  Require values s = Ret r s' →
  r = None ∧ lock (Caps s) = Some (mkMutex false) ∧ known values s ∧
  wrote Required true values s s' ∧ trace s' = EvUnlock :: EvLock :: trace s.
Proof.
  intros Hb E. unfold Require in E.
  rewrite (bind_Ret getCaps _ s (Caps s) s eq_refl), Hb in E.
  by apply (table_mutator_Ret true).
Qed.

Lemma Unrequire_Ret (values : list Value) (s s' : State World) r :
  bypass (Caps s) = false →
  Unrequire values s = Ret r s' →
  r = None ∧ lock (Caps s) = Some (mkMutex false) ∧ known values s ∧
  wrote Required false values s s' ∧ trace s' = EvUnlock :: EvLock :: trace s.
Proof.
  intros Hb E. unfold Unrequire in E.
  rewrite (bind_Ret getCaps _ s (Caps s) s eq_refl), Hb in E.
  by apply (table_mutator_Ret false).
Qed.

Lemma Unrequire_known (values : list Value) (s : State World) :
  bypass (Caps s) = false →
  lock (Caps s) = Some (mkMutex false) →
  known values s →
  ∃ s', Unrequire values s = Ret None s'.
Proof.
  intros Hb Hl Hk. unfold Unrequire.
  rewrite (bind_Ret getCaps _ s (Caps s) s eq_refl), Hb.
  by apply (table_mutator_known false).
Qed.

(** X1. A [Require] that returns, bypass inactive: its error is [nil];
    the mutex was free and is free again; every value was a key of the
    table; the Required cell of each value is now true and no other cell
    of the table moved; neither the world nor the snapshot was touched, and
    the only events are the lock and the unlock. *)
Theorem Require_returns (values : list Value) (s s' : State World) (r : option error) :
  bypass (Caps s) = false →
  Require values s = Ret r s' →
  r = None ∧
  lock (Caps s) = Some (mkMutex false) ∧
  lock (Caps s') = Some (mkMutex false) ∧
  (∀ v, v ∈ values → v ∈ dom (all (Caps s))) ∧
  dom (all (Caps s')) = dom (all (Caps s)) ∧
  (∀ v t, Membership (Caps s') v t
          = if decide (v ∈ values ∧ t = Required) then true else Membership (Caps s) v t) ∧
  world s' = world s ∧
  have (Caps s') = have (Caps s) ∧
  trace s' = EvUnlock :: EvLock :: trace s.
Proof.
  intros Hb E.
  destruct (Require_Ret _ _ _ _ Hb E) as (-> & Hl & Hk & (Hw & Hh & _ & _ & Hl' & Hd & Hm) & Ht).
  split_and!; try done.
  - by rewrite Hl'.
  - intros v Hv. unfold known in Hk. rewrite Forall_forall in Hk. by apply Hk.
Qed.

(** X2. A [Unrequire] that returns, bypass inactive: the same, with the
    Required cell of each value now false. *)
Theorem Unrequire_returns (values : list Value) (s s' : State World) (r : option error) :
  bypass (Caps s) = false →
  Unrequire values s = Ret r s' →
  r = None ∧
  lock (Caps s) = Some (mkMutex false) ∧
  lock (Caps s') = Some (mkMutex false) ∧
  (∀ v, v ∈ values → v ∈ dom (all (Caps s))) ∧
  dom (all (Caps s')) = dom (all (Caps s)) ∧
  (∀ v t, Membership (Caps s') v t
          = if decide (v ∈ values ∧ t = Required) then false else Membership (Caps s) v t) ∧
  world s' = world s ∧
  have (Caps s') = have (Caps s) ∧
  trace s' = EvUnlock :: EvLock :: trace s.
Proof.
  intros Hb E.
  destruct (Unrequire_Ret _ _ _ _ Hb E) as (-> & Hl & Hk & (Hw & Hh & _ & _ & Hl' & Hd & Hm) & Ht).
  split_and!; try done.
  - by rewrite Hl'.
  - intros v Hv. unfold known in Hk. rewrite Forall_forall in Hk. by apply Hk.
Qed.

(** X3. What [Require] accepted [Unrequire] accepts, and the other way
    round ([b] tells which call comes first).  [Unrequire] after [Require]
    does not bring the column back to what it was: the values end up not
    Required, whatever they were before; [Require] after [Unrequire] leaves
    them Required.  The rest of the table is as before the two calls. *)
Theorem Require_Unrequire_compose (b : bool) (values : list Value)
    (s s1 : State World) (r : option error) :
  bypass (Caps s) = false →
  (if b then Require else Unrequire) values s = Ret r s1 →
  ∃ s2, (if b then Unrequire else Require) values s1 = Ret None s2 ∧
        ∀ v t, Membership (Caps s2) v t
               = if decide (v ∈ values ∧ t = Required) then negb b
                 else Membership (Caps s) v t.
Proof.
  intros Hb E. destruct b; simpl.
  - destruct (Require_Ret _ _ _ _ Hb E) as (_ & Hl & Hk & (_ & _ & Hb1 & _ & Hl1 & Hd & Hm) & _).
    rewrite Hb in Hb1. rewrite Hl in Hl1.
    destruct (Unrequire_known values s1 Hb1 Hl1) as (s2 & E2).
    { unfold known in *. by rewrite Hd. }
    exists s2. split; [done|].
    destruct (Unrequire_Ret _ _ _ _ Hb1 E2) as (_ & _ & _ & (_ & _ & _ & _ & _ & _ & Hm2) & _).
    intros v t. rewrite Hm2, Hm. by destruct (decide (v ∈ values ∧ t = Required)).
  - destruct (Unrequire_Ret _ _ _ _ Hb E) as (_ & Hl & Hk & (_ & _ & Hb1 & _ & Hl1 & Hd & Hm) & _).
    rewrite Hb in Hb1. rewrite Hl in Hl1.
    destruct (Require_known values s1 Hb1 Hl1) as (s2 & E2 & (_ & _ & _ & _ & _ & Hm2)).
    { unfold known in *. by rewrite Hd. }
    exists s2. split; [done|].
    intros v t. rewrite Hm2, Hm. by destruct (decide (v ∈ values ∧ t = Required)).
Qed.

(** ** Calls that do not return *)

Lemma forRange_app {A} (f : A → M World unit) (l1 l2 : list A) (s : State World) :
  forRange f (l1 ++ l2) s = (forRange f l1 ;; forRange f l2) s.
Proof.
  revert s. induction l1 as [|x l1 IH]; intros s; [done|].
  simpl. unfold mbind, M_bind, bind. destruct (f x s) as [[] s1| |]; [|done|done].
  rewrite IH. done.
Qed.

(** The loop of [set] and [unset] is not atomic: the values before the
    first unknown one are written before the panic. *)
Lemma forRange_assign_partial t b (pre post : list Value) (bad : Value) (s : State World) :
  known pre s →
  bad ∉ dom (all (Caps s)) →
  ∃ s1, forRange (assign t b) (pre ++ bad :: post) s = Panic nilMapAssignment s1 ∧
        wrote t b pre s s1 ∧ trace s1 = trace s.
Proof.
  intros Hk Hbad.
  destruct (forRange_assign_known t b pre s) as (s1 & E1).
  { intros v Hv. unfold known in Hk. rewrite Forall_forall in Hk. by apply Hk. }
  pose proof (forRange_assign_Ret _ _ _ _ _ E1) as (Hw & Ht & Hh & Hb & Hi & Hl & Hd & _ & Hm).
  exists s1. split_and!.
  - rewrite forRange_app, (bind_Ret _ _ _ _ _ E1). cbn [forRange].
    apply bind_Panic. unfold assign.
    rewrite <- Hd in Hbad. apply not_elem_of_dom in Hbad. by rewrite Hbad.
  - by unfold wrote.
  - done.
Qed.

Lemma exec_held (c : Call World) (s : State World) :
  bypass (Caps s) = false →
  lock (Caps s) = Some (mkMutex true) →
  exec c s = Block s.
Proof.
  intros Hb Hl.
  assert (Lock s = Block s) as El by (unfold Lock; by rewrite Hl).
  destruct c as [values|values|[| |values] cb]; simpl.
  - unfold Require, mbind, M_bind, bind, getCaps. by rewrite Hb, El.
  - unfold Unrequire, mbind, M_bind, bind, getCaps. by rewrite Hb, El.
  - unfold RunPrivileged, mbind, M_bind, bind, getCaps. rewrite Hb. simpl. by rewrite El.
  - unfold RunRequired, mbind, M_bind, bind, getCaps. rewrite Hb. simpl. by rewrite El.
  - unfold RunRequested, mbind, M_bind, bind, getCaps. rewrite Hb. simpl. by rewrite El.
Qed.

(** X4. [Require] and [Unrequire] do not defer the unlock.  Given values
    the first unknown of which is [bad], they panic after having written
    the cells of the values before it, and leave the mutex held: whoever
    recovers the panic finds every later call of the package blocked. *)
Theorem mutator_panic_keeps_mutex (b : bool) (pre post : list Value) (bad : Value)
    (s : State World) :
  bypass (Caps s) = false →
  lock (Caps s) = Some (mkMutex false) →
  known pre s →
  bad ∉ dom (all (Caps s)) →
  ∃ s', (if b then Require else Unrequire) (pre ++ bad :: post) s
          = Panic nilMapAssignment s' ∧
        lock (Caps s') = Some (mkMutex true) ∧
        (∀ v t, Membership (Caps s') v t
                = if decide (v ∈ pre ∧ t = Required) then b
                  else Membership (Caps s) v t) ∧
        ∀ c, exec c s' = Block s'.
Proof.
  intros Hb Hl Hk Hbad.
  set (sl := emitted EvLock (with_Caps (with_lock (Some (mkMutex true))) s)).
  destruct (forRange_assign_partial Required b pre post bad sl Hk Hbad)
    as (s1 & E1 & (_ & _ & Hb1 & _ & Hl1 & _ & Hm) & _).
  exists s1. split_and!.
  - destruct b.
    + unfold Require. rewrite (bind_Ret getCaps _ s (Caps s) s eq_refl), Hb.
      rewrite (bind_Ret _ _ _ _ _ (Lock_free _ Hl)). fold sl.
      apply bind_Panic. unfold set. by apply bind_Panic.
    + unfold Unrequire. rewrite (bind_Ret getCaps _ s (Caps s) s eq_refl), Hb.
      rewrite (bind_Ret _ _ _ _ _ (Lock_free _ Hl)). fold sl.
      apply bind_Panic. unfold unset. by apply bind_Panic.
  - by rewrite Hl1.
  - done.
  - intros c. apply exec_held; [by rewrite Hb1 | by rewrite Hl1].
Qed.

(** X5. [RunRequested] defers the unlock.  Given values the first unknown
    of which is [bad], it panics before any call to the kernel and without
    running the callback, with the mutex released; the values before [bad]
    stay in the Requested column. *)
Theorem RunRequested_panic_releases_mutex (cb : Callback World)
    (pre post : list Value) (bad : Value) (s : State World) :
  bypass (Caps s) = false →
  lock (Caps s) = Some (mkMutex false) →
  known pre s →
  bad ∉ dom (all (Caps s)) →
  ∃ s', RunRequested cb (pre ++ bad :: post) s = Panic nilMapAssignment s' ∧
        lock (Caps s') = Some (mkMutex false) ∧
        world s' = world s ∧
        trace s' = EvUnlock :: EvLock :: trace s ∧
        ∀ v t, Membership (Caps s') v t
               = if decide (v ∈ pre ∧ t = Requested) then true
                 else Membership (Caps s) v t.
Proof.
  intros Hb Hl Hk Hbad.
  set (sl := emitted EvLock (with_Caps (with_lock (Some (mkMutex true))) s)).
  destruct (forRange_assign_partial Requested true pre post bad sl Hk Hbad)
    as (s1 & E1 & (Hw & _ & _ & _ & Hl1 & _ & Hm) & Ht).
  exists (emitted EvUnlock (with_Caps (with_lock (Some (mkMutex false))) s1)).
  split_and!; try done.
  - unfold RunRequested; cbv zeta. unfold mbind at 1, M_bind at 1, bind, getCaps.
    rewrite Hb; simpl. rewrite (bind_Ret _ _ _ _ _ (Lock_free _ Hl)). fold sl.
    unfold deferring. unfold set at 1.
    rewrite (bind_Panic _ _ _ _ _ (bind_Panic _ _ _ _ _ E1)).
    by rewrite (Unlock_held s1 Hl1).
  - simpl. by rewrite Ht.
Qed.

(** X6. While the mutex is held, no call of the package gets anywhere:
    with bypass inactive every one of them waits at the lock, having
    changed nothing and called nothing. *)
Theorem held_mutex_blocks (c : Call World) (s : State World) :
  bypass (Caps s) = false →
  lock (Caps s) = Some (mkMutex true) →
  exec c s = Block s.
Proof. apply exec_held. Qed.


(** ** [apply], case by case *)

Lemma apply_query_refused t (s : State World) e0 w :
  GetPID (world s) = (inl e0, w) →
  apply t s = Ret (Some (couldNotGetProc e0))
                  (emitted (EvGetPID false) (with_world w (with_Caps (with_have None) s))).
Proof.
  intros Eg. unfold apply.
  assert (getProc s = Ret (Some (couldNotGetProc e0))
    (emitted (EvGetPID false) (with_world w (with_Caps (with_have None) s)))) as E1
    by (unfold getProc; by rewrite Eg).
  by rewrite (bind_Ret _ _ _ _ _ E1).
Qed.

(** When the query succeeds [apply] comes down to one commit, of the
    snapshot queried with its effective flags rewritten over the table. *)
Lemma apply_exact t (s : State World) c0 w :
  GetPID (world s) = (inr c0, w) →
  ∃ dbg, forallb isDebug dbg = true ∧
    apply t s
    = match SetProc (effectiveOf t (map_to_list (all (Caps s))) c0) w with
      | (None, w') =>
          Ret None
            (mkState (with_have (Some (effectiveOf t (map_to_list (all (Caps s))) c0)) (Caps s))
                     w'
                     (EvSetProc (effectiveOf t (map_to_list (all (Caps s))) c0) true
                      :: dbg ++ EvGetPID true :: trace s))
      | (Some e0, w') =>
          Ret (Some (couldNotSetProc e0))
            (mkState (with_have (Some (effectiveOf t (map_to_list (all (Caps s))) c0)) (Caps s))
                     w'
                     (EvSetProc (effectiveOf t (map_to_list (all (Caps s))) c0) false
                      :: dbg ++ EvGetPID true :: trace s))
      end.
Proof.
  intros Eg. unfold apply.
  set (s1 := emitted (EvGetPID true) (with_world w (with_Caps (with_have (Some c0)) s))).
  assert (getProc s = Ret None s1) as E1 by (unfold getProc; by rewrite Eg).
  rewrite (bind_Ret _ _ _ _ _ E1).
  set (s2 := emitted (EvDebug "capabilities change") s1).
  rewrite (bind_Ret (debug "capabilities change") _ s1 tt s2 eq_refl).
  rewrite (bind_Ret getCaps _ s2 (Caps s2) s2 eq_refl).
  destruct (applyRange_Some t (map_to_list (all (Caps s2))) s2 c0 eq_refl)
    as (newR & E3 & HnR).
  rewrite (bind_Ret _ _ _ _ _ E3).
  exists (newR ++ [EvDebug "capabilities change"]). split.
  { rewrite forallb_app, HnR. done. }
  unfold setProc; simpl.
  change (all (Caps s)) with (all (Caps s2)).
  destruct (SetProc _ w) as [[e|] w']; simpl; by rewrite <- app_assoc.
Qed.

Lemma effectiveOf_others t kvs c0 :
  permitted (effectiveOf t kvs c0) = permitted c0 ∧
  inheritable (effectiveOf t kvs c0) = inheritable c0.
Proof.
  revert c0. induction kvs as [|[k v] kvs IH]; intros c0; [done|].
  rewrite effectiveOf_cons. by destruct (IH (SetFlag c0 Effective (default false (v !! t)) k)).
Qed.

Lemma active_same (t : ringType) (s s' : State World) :
  all (Caps s') = all (Caps s) →
  lastCommit (trace s') = lastCommit (trace s) →
  active t s' = active t s.
Proof. intros Ha Hc. unfold active. by rewrite Ha, Hc. Qed.

(** X9. [apply] always returns.  When it returns [nil] the ring it was
    given is the active ring.  When it returns an error nothing was
    committed: every ring is active after the call exactly if it was
    before; the error is the kernel's, wrapped by [couldNotGetProc] or by
    [couldNotSetProc]. *)
Theorem apply_commits_or_keeps (t : ringType) (s : State World) :
  ∃ r s',
    apply t s = Ret r s' ∧
    match r with
    | None => active t s' = true
    | Some e =>
        (∀ t0, active t0 s' = active t0 s) ∧
        ((∃ e0, e = couldNotGetProc e0) ∨ (∃ e0, e = couldNotSetProc e0))
    end.
Proof.
  destruct (GetPID (world s)) as [[e0|c0] w] eqn:Eg.
  - eexists _, _. split; [by apply apply_query_refused|]. split; [|by eauto].
    intros t0. by apply active_same.
  - destruct (apply_exact t s c0 w Eg) as (dbg & Hd & E).
    destruct (debug_events _ Hd) as (_ & _ & Hl).
    destruct (SetProc _ w) as [[e|] w'].
    + eexists _, _. split; [exact E|]. split; [|by eauto].
      intros t0. apply active_same; [done|]. simpl. by rewrite Hl.
    + eexists _, _. split; [exact E|]. by apply apply_nil_active in E.
Qed.

(** X10. The snapshot [apply] commits is the one it queried with only
    effective flags rewritten: the permitted and inheritable sets are the
    kernel's, the effective flag of every capability of the table is its
    cell in the ring's column, and the effective flag of any other value
    is left as queried. *)
Theorem apply_writes_effective_only (t : ringType) (s s' : State World)
    (c0 : CapSet) (w : World) :
  GetPID (world s) = (inr c0, w) →
  apply t s = Ret None s' →
  ∃ c, have (Caps s') = Some c ∧
       lastCommit (trace s') = Some c ∧
       permitted c = permitted c0 ∧
       inheritable c = inheritable c0 ∧
       (∀ k, k ∈ dom (all (Caps s)) → GetFlag c Effective k = Membership (Caps s) k t) ∧
       (∀ k, k ∉ dom (all (Caps s)) → GetFlag c Effective k = GetFlag c0 Effective k).
Proof.
  intros Eg E. destruct (apply_exact t s c0 w Eg) as (dbg & Hd & E').
  rewrite E in E'.
  set (c := effectiveOf t (map_to_list (all (Caps s))) c0) in *.
  destruct (SetProc c w) as [[e|] w']; [done|]. injection E' as ->.
  exists c. destruct (effectiveOf_others t (map_to_list (all (Caps s))) c0) as [Hp Hi].
  split_and!; try done.
  - intros k [m Hm]%elem_of_dom. unfold Membership. rewrite Hm.
    apply effectiveOf_column; [apply NoDup_fst_map_to_list | by apply elem_of_map_to_list].
  - intros k Hk. apply effectiveOf_other.
    intros [[k' m] [-> Hin]]%list_elem_of_fmap. simpl in Hk.
    apply elem_of_map_to_list in Hin. apply Hk. by apply elem_of_dom_2 in Hin.
Qed.

(** ** The ring the callback runs in *)

Lemma beforeCallback_app (l tr : list Event) errCb :
  existsb isCallback l = false →
  beforeCallback (l ++ EvCallback errCb :: tr) = tr.
Proof.
  induction l as [|e l IH]; intros Hl; [done|].
  simpl in Hl. apply orb_false_elim in Hl as [He Hl].
  destruct e; try done; simpl; by apply IH.
Qed.

(** X8. With bypass inactive, when a run-in-ring method returns after its
    callback ran, the last snapshot committed before the callback has, for
    every capability of the table, the effective flag the table the method
    was called on gives it: its Privileged cell for [RunPrivileged], its
    Required cell for [RunRequired] (so what [Require] and [Unrequire] left
    there), and for [RunRequested] true for the values passed and else the
    Requested cell, so what an earlier call left staged comes along. *)
Theorem ring_seen_by_callback
    (op : RingOp) (cb : Callback World) (s s' : State World)
    (r : option error) (new : list Event) :
  bypass (Caps s) = false →
  run op cb s = Ret r s' →
  trace s' = new ++ trace s →
  existsb isCallback new = true →
  ∃ c, lastCommit (beforeCallback (trace s')) = Some c ∧
       ∀ k, k ∈ dom (all (Caps s)) →
            GetFlag c Effective k = elevatedFlag op (Caps s) k.
Proof.
  intros Hb E Ht Hcb.
  rewrite run_elevated in E by done.
  apply guarded_Ret in E as (Hfree & s4 & E & ->); [|apply preserves_elevated_op].
  set (sl := emitted EvLock (with_Caps (with_lock (Some (mkMutex true))) s)) in *.
  unfold elevated in E.
  apply bind_inv in E as ([] & s0 & Es & E).
  apply bind_inv in E as (err & s1 & Ea & E).
  pose proof (stage_Ret _ _ _ Es) as T0.
  destruct err as [e|].
  { injection E as _ <-. exfalso.
    apply apply_error_refused in Ea as (n1 & T1 & _ & Hc & _).
    simpl in Ht. rewrite T1, T0 in Ht. simpl in Ht.
    assert (new = (EvUnlock :: n1) ++ [EvLock]) as ->.
    { apply (app_inv_tail (trace s)). rewrite <- Ht. simpl. by rewrite <- app_assoc. }
    rewrite existsb_app in Hcb. simpl in Hcb. by rewrite Hc in Hcb. }
  apply bind_inv in E as ([] & s1' & Eu & E).
  apply bind_inv in E as (errCb & s2 & Ec & E).
  apply bind_inv in E as (c & s2' & [= <- <-] & E).
  assert (quiet sl s2) as Q.
  { etrans; [exact (quiet_Ret _ _ _ _ (preserves_stage op) Es)|].
    etrans; [exact (quiet_Ret _ _ _ _ (preserves_apply _) Ea)|].
    etrans; [exact (quiet_Ret _ _ _ _ (preserves_unstage op) Eu)|].
    exact (quiet_Ret _ _ _ _ (preserves_call cb) Ec). }
  rewrite (quiet_bypass _ _ Q) in E. simpl in E. rewrite Hb in E. simpl in E.
  apply bind_inv in E as (err & s3 & Er & E).
  destruct (apply_Ret Unprivileged s2) as (r3 & s3' & n3 & Er' & T3 & _ & _ & _ & Hc3 & _).
  rewrite Er in Er'. injection Er' as <- <-.
  assert (s4 = s3) as -> by (destruct err; by injection E as _ <-).
  destruct (apply_Ret (ringOf op) s0) as (r1 & s1_ & n1 & Ea' & T1 & _ & _ & _ & _ & H1).
  rewrite Ea in Ea'. injection Ea' as <- <-.
  destruct H1 as (_ & c1 & n1' & -> & Hcol).
  exists c1. split.
  - simpl. rewrite T3, (call_Ret _ _ _ _ Ec), (unstage_Ret _ _ _ Eu), T1.
    change (EvUnlock :: n3 ++ ?x) with ((EvUnlock :: n3) ++ x).
    by rewrite beforeCallback_app.
  - intros k Hk.
    assert (k ∈ dom (all (Caps s0))) as [m Hm]%elem_of_dom.
    { by rewrite (quiet_dom _ _ (quiet_Ret _ _ _ _ (preserves_stage op) Es)). }
    rewrite (Hcol k m Hm).
    assert (default false (m !! ringOf op) = Membership (Caps s0) k (ringOf op)) as ->
      by (unfold Membership; by rewrite Hm).
    destruct op as [| |values]; simpl in *.
    + by injection Es as <-.
    + by injection Es as <-.
    + apply forRange_assign_Ret in Es as (_ & _ & _ & _ & _ & _ & _ & _ & Hmem).
      rewrite Hmem. destruct (decide (k ∈ values ∧ Requested = Requested)) as [[Hin _]|Hn].
      * by rewrite bool_decide_eq_true_2.
      * rewrite bool_decide_eq_false_2; [done | naive_solver].
Qed.

(** ** [initialize], step by step *)

Lemma forRange_seed_table (l : list Value) (s : State World) :
  forRange seed l s
  = Ret tt (with_Caps
      (with_all (foldl (λ a v, <[v := <[Privileged := true]> ∅]> a) (all (Caps s)) l)) s).
Proof.
  revert s. induction l as [|x l IH]; intros s.
  - simpl. unfold mret, M_ret, ret. by destruct s as [[] ? ?].
  - cbn [forRange]. unfold mbind, M_bind, bind, seed, modifyCaps. by rewrite IH.
Qed.

Lemma seedTable_lookup (v : Value) :
  seedTable MaxBits !! v
  = if decide (v < MaxBits) then Some (<[Privileged := true]> ∅) else None.
Proof.
  unfold seedTable. generalize MaxBits. intros n.
  assert (∀ (l : list nat) (a : gmap nat (gmap ringType bool)),
    foldl (λ a v, <[v := <[Privileged := true]> ∅]> a) a l !! v
    = if decide (v ∈ l) then Some (<[Privileged := true]> ∅) else a !! v) as H.
  { induction l as [|x l IH]; intros a; cbn [foldl].
    - rewrite decide_False; [done | set_solver].
    - rewrite IH. destruct (decide (v ∈ l)).
      + rewrite decide_True; [done | set_solver].
      + destruct (decide (v = x)) as [->|Hne].
        * rewrite lookup_insert_eq. rewrite decide_True; [done | set_solver].
        * rewrite lookup_insert_ne by done. rewrite decide_False; [done | set_solver]. }
  rewrite H, lookup_empty.
  destruct (decide (v < n)).
  - rewrite decide_True; [done|]. apply elem_of_seq. lia.
  - rewrite decide_False; [done|]. rewrite elem_of_seq. lia.
Qed.

Lemma Membership_seedTable (c : Capabilities) (v : Value) (t : ringType) :
  all c = seedTable MaxBits →
  Membership c v t = bool_decide (v < MaxBits ∧ t = Privileged).
Proof.
  intros Ha. unfold Membership. rewrite Ha, seedTable_lookup.
  destruct (decide (v < MaxBits)).
  - destruct t; simpl; symmetry;
      (by apply bool_decide_eq_true_2) || (apply bool_decide_eq_false_2; naive_solver).
  - symmetry. apply bool_decide_eq_false_2. naive_solver.
Qed.

Lemma dropOrder_known :
  NoDup dropOrder ∧ ∀ v, v ∈ dropOrder ↔ v < MaxBits.
Proof.
  unfold dropOrder. split; [apply NoDup_fst_map_to_list|].
  intros v. rewrite list_elem_of_fmap. split.
  - intros [[k m] [-> Hin]]. apply elem_of_map_to_list in Hin.
    rewrite seedTable_lookup in Hin. simpl. by destruct (decide (k < MaxBits)).
  - intros Hv. exists (v, <[Privileged := true]> ∅). split; [done|].
    apply elem_of_map_to_list. rewrite seedTable_lookup. by rewrite decide_True.
Qed.

Lemma forRange_dropBound (l : list Value) (s : State World) :
  forRange dropBound l s
  = Ret tt (mkState (Caps s) (foldl (λ w v, (DropBound v w).2) (world s) l)
                    (rev (EvDropBound <$> l) ++ trace s)).
Proof.
  revert s. induction l as [|x l IH]; intros s.
  - simpl. unfold mret, M_ret, ret. by destruct s.
  - cbn [forRange]. unfold mbind, M_bind, bind, dropBound.
    destruct (DropBound x (world s)) as [r w] eqn:Ed. rewrite IH. simpl.
    rewrite Ed. simpl. by rewrite <- app_assoc.
Qed.

(** A non-bypass [initialize] on a manager not flagged initialized, up to
    its first commit. *)
Lemma initialize_false_steps (s : State World) :
  initialized (Caps s) = false →
  match GetPID (world s) with
  | (inl e0, w) =>
      initialize false s
      = Ret (Some (couldNotGetProc e0))
            (mkState (seededCaps (Caps s) None) w (EvGetPID false :: trace s))
  | (inr c0, w0) =>
      initialize false s
      = match SetProc c0 (boundDropped w0) with
        | (Some e0, w') =>
            Ret (Some (couldNotSetProc e0))
                (mkState (seededCaps (Caps s) (Some c0)) w'
                   (EvSetProc c0 false
                    :: rev (EvDropBound <$> dropOrder) ++ EvGetPID true :: trace s))
        | (None, w') =>
            policyBootstrap
              (mkState (seededCaps (Caps s) (Some c0)) w'
                 (EvSetProc c0 true
                  :: rev (EvDropBound <$> dropOrder) ++ EvGetPID true :: trace s))
        end
  end.
Proof.
  intros Hi. unfold initialize.
  rewrite (bind_Ret getCaps _ s (Caps s) s eq_refl), Hi.
  set (s1 := with_Caps (with_lock (Some (mkMutex false))) s).
  rewrite (bind_Ret (modifyCaps (with_lock (Some (mkMutex false)))) _ s tt s1 eq_refl).
  set (s2 := with_Caps (with_all ∅) s1).
  rewrite (bind_Ret (modifyCaps (with_all ∅)) _ s1 tt s2 eq_refl).
  rewrite (bind_Ret _ _ _ _ _ (forRange_seed_table _ s2)).
  change (foldl _ (all (Caps s2)) (seq 0 MaxBits)) with (seedTable MaxBits).
  set (s3 := with_Caps (with_all (seedTable MaxBits)) s2).
  destruct (GetPID (world s)) as [[e0|c0] w0] eqn:Eg.
  - assert (getProc s3 = Ret (Some (couldNotGetProc e0))
       (mkState (seededCaps (Caps s) None) w0 (EvGetPID false :: trace s))) as E1.
    { unfold getProc. change (world s3) with (world s). by rewrite Eg. }
    by rewrite (bind_Ret _ _ _ _ _ E1).
  - set (s4 := mkState (seededCaps (Caps s) (Some c0)) w0 (EvGetPID true :: trace s)).
    assert (getProc s3 = Ret None s4) as E1.
    { unfold getProc. change (world s3) with (world s). by rewrite Eg. }
    rewrite (bind_Ret _ _ _ _ _ E1).
    rewrite (bind_Ret getCaps _ s4 (Caps s4) s4 eq_refl).
    rewrite (bind_Ret _ _ _ _ _ (forRange_dropBound _ s4)).
    change (map fst (map_to_list (all (Caps s4)))) with dropOrder.
    change (foldl _ (world s4) dropOrder) with (boundDropped w0).
    unfold mbind, M_bind, bind, setProc. simpl.
    by destruct (SetProc c0 (boundDropped w0)) as [[e0|] w'].
Qed.

Lemma policyBootstrap_last (s s' : State World) r :
  policyBootstrap s = Ret r s' → ∃ s1, apply Unprivileged s1 = Ret r s'.
Proof.
  unfold policyBootstrap. intros E.
  apply bind_inv in E as (r1 & sa & _ & E).
  apply bind_inv in E as ([p err] & sb & _ & E).
  apply bind_inv in E as ([] & sc & _ & E).
  apply bind_inv in E as ([] & sd & _ & E).
  apply bind_inv in E as (c & sd' & _ & E).
  apply bind_inv in E as (r3 & se & _ & E).
  by exists se.
Qed.

(** A bootstrap that returns found the mutex free and every capability it
    requires among the keys of the table. *)
Lemma policyBootstrap_Ret_known (s s' : State World) r :
  bypass (Caps s) = false →
  policyBootstrap s = Ret r s' →
  lock (Caps s) = Some (mkMutex false) ∧
  known (bootstrapValues (paranoidValueIn (world s)).1
                         (haveGetFlag (Caps s) Permitted BPF)) s.
Proof.
  intros Hb E. unfold policyBootstrap in E.
  apply bind_inv in E as (r1 & sa & Ea & E).
  destruct (Require_Ret _ _ _ _ Hb Ea) as (_ & Hl & Hk1 & (Hwa & Hha & Hba & _ & Hla & Hda & _) & _).
  split; [done|].
  apply bind_inv in E as ([p err] & sb & Eb & E).
  unfold getKernelPerfEventParanoidValue in Eb. injection Eb as Hp <-.
  rewrite Hwa in Hp. rewrite Hp. cbn [fst].
  apply bind_inv in E as ([] & sc & Ec & E).
  assert (Caps sc = Caps sa) as Hc.
  { destruct err; unfold debug, emit, mret, M_ret, ret in Ec; by injection Ec as <-. }
  apply bind_inv in E as ([] & sd & Ed & E).
  assert (known (if (2 <? p)%Z then [SYS_ADMIN] else []) s ∧
          have (Caps sd) = have (Caps s) ∧ bypass (Caps sd) = false ∧
          dom (all (Caps sd)) = dom (all (Caps s))) as (Hk2 & Hhd & Hbd & Hdd).
  { destruct (2 <? p)%Z.
    - apply bind_inv in Ed as ([] & s1 & [= <-] & Ed).
      apply bind_inv in Ed as ([] & s2 & [= <-] & Ed).
      apply bind_inv in Ed as ([] & s3 & [= <-] & Ed).
      apply bind_inv in Ed as (r2 & s4 & Er & Ed).
      unfold mret, M_ret, ret in Ed. injection Ed as <-.
      assert (bypass (Caps sc) = false) as Hbc by (by rewrite Hc, Hba).
      apply Require_Ret in Er as (_ & _ & Hk & (_ & Hh & Hb' & _ & _ & Hd & _) & _);
        [|exact Hbc].
      unfold known in *. simpl in Hk, Hh, Hb', Hd. rewrite Hc in Hk, Hh, Hb', Hd.
      split_and!.
      + by rewrite <- Hda.
      + by rewrite Hh, Hha.
      + by rewrite Hb', Hba.
      + by rewrite Hd, Hda.
    - unfold mret, M_ret, ret in Ed. injection Ed as <-. rewrite Hc. split_and!.
      + by constructor.
      + done.
      + by rewrite Hba.
      + done. }
  apply bind_inv in E as (c & sd' & [= <- <-] & E).
  apply bind_inv in E as (r3 & se & Ee & _).
  assert (haveGetFlag (Caps sd) Permitted BPF = haveGetFlag (Caps s) Permitted BPF) as Hf
    by (unfold haveGetFlag; by rewrite Hhd).
  rewrite Hf in Ee.
  assert (known (if haveGetFlag (Caps s) Permitted BPF then [BPF; PERFMON] else [SYS_ADMIN]) s)
    as Hk3.
  { destruct (haveGetFlag (Caps s) Permitted BPF);
      destruct (Require_Ret _ _ _ _ Hbd Ee) as (_ & _ & Hk & _);
      unfold known in *; by rewrite <- Hdd. }
  unfold bootstrapValues, known in *. by rewrite !Forall_app.
Qed.

(** X11. The table a successful non-bypass [initialize] leaves, on a
    manager that is not in bypass mode: the Privileged column holds every
    capability below [MaxBits]; the Required column holds IPC_LOCK and
    SYS_RESOURCE, SYS_ADMIN when the tunable read after the first commit is
    above 2, and BPF and PERFMON when the snapshot queried permits BPF,
    SYS_ADMIN when it does not; the Requested and Unprivileged columns are
    empty. *)
Theorem initialize_table (s0 s1 : State World) :
  bypass (Caps s0) = false →
  initialize false s0 = Ret None s1 →
  ∃ c0 w0 w',
    GetPID (world s0) = (inr c0, w0) ∧
    SetProc c0 (boundDropped w0) = (None, w') ∧
    ∀ v t, Membership (Caps s1) v t
           = match t with
             | Privileged => bool_decide (v < MaxBits)
             | Required =>
                 bool_decide (v ∈ bootstrapValues (paranoidValueIn w').1
                                                  (GetFlag c0 Permitted BPF))
             | _ => false
             end.
Proof.
  intros Hb E.
  assert (initialized (Caps s0) = false) as Hi.
  { destruct (initialized (Caps s0)) eqn:Hi; [|done].
    unfold initialize in E. rewrite (bind_Ret getCaps _ s0 (Caps s0) s0 eq_refl), Hi in E.
    done. }
  pose proof (initialize_false_steps s0 Hi) as S.
  destruct (GetPID (world s0)) as [[e0|c0] w0]; [by rewrite E in S|].
  destruct (SetProc c0 (boundDropped w0)) as [[e0|] w'] eqn:Es; [by rewrite E in S|].
  rewrite E in S. symmetry in S.
  exists c0, w0, w'. split_and!; [done | done |].
  set (sb := mkState (seededCaps (Caps s0) (Some c0)) w'
    (EvSetProc c0 true :: rev (EvDropBound <$> dropOrder) ++ EvGetPID true :: trace s0)) in *.
  destruct (policyBootstrap_Ret_known sb s1 None Hb S) as [Hl Hk].
  destruct (policyBootstrap_known sb Hb Hl Hk) as (s2 & r & s' & _ & E' & Hm).
  rewrite S in E'. injection E' as <- <-.
  intros v t. rewrite Hm. rewrite (Membership_seedTable (Caps sb) v t eq_refl).
  change (haveGetFlag (Caps sb) Permitted BPF) with (GetFlag c0 Permitted BPF).
  change (world sb) with w'.
  set (vs := bootstrapValues _ _).
  assert (∀ x, x ∈ vs → x < MaxBits) as Hlt.
  { intros x Hx. unfold known in Hk. rewrite Forall_forall in Hk.
    specialize (Hk x Hx). apply elem_of_dom in Hk as [m Hm'].
    change (all (Caps sb)) with (seedTable MaxBits) in Hm'.
    rewrite seedTable_lookup in Hm'. by destruct (decide (x < MaxBits)). }
  destruct (decide (v ∈ vs ∧ t = Required)) as [[Hv ->]|Hn].
  - symmetry. by apply bool_decide_eq_true_2.
  - destruct t.
    + apply bool_decide_ext. naive_solver.
    + rewrite bool_decide_eq_false_2 by naive_solver.
      symmetry. apply bool_decide_eq_false_2. naive_solver.
    + apply bool_decide_eq_false_2. naive_solver.
    + apply bool_decide_eq_false_2. naive_solver.
Qed.

(** X12. What a successful non-bypass [initialize] did, in order: one
    query; one drop from the bounding set for each capability below
    [MaxBits], each once; the commit of the snapshot as queried; then the
    bootstrap.  It leaves the Unprivileged ring active and the mutex
    free. *)
Theorem initialize_steady_state (s0 s1 : State World) :
  initialize false s0 = Ret None s1 →
  ∃ c0 w0 later,
    GetPID (world s0) = (inr c0, w0) ∧
    trace s1 = later ++ EvSetProc c0 true
                 :: rev (EvDropBound <$> dropOrder) ++ EvGetPID true :: trace s0 ∧
    NoDup dropOrder ∧
    (∀ v, v ∈ dropOrder ↔ v < MaxBits) ∧
    active Unprivileged s1 = true ∧
    lock (Caps s1) = Some (mkMutex false).
Proof.
  intros E.
  assert (initialized (Caps s0) = false) as Hi.
  { destruct (initialized (Caps s0)) eqn:Hi; [|done].
    unfold initialize in E. rewrite (bind_Ret getCaps _ s0 (Caps s0) s0 eq_refl), Hi in E.
    done. }
  pose proof (initialize_false_steps s0 Hi) as S.
  destruct (GetPID (world s0)) as [[e0|c0] w0]; [by rewrite E in S|].
  destruct (SetProc c0 (boundDropped w0)) as [[e0|] w'] eqn:Es; [by rewrite E in S|].
  rewrite E in S. symmetry in S.
  destruct (preservesRet_policyBootstrap _ _ _ S) as [(_ & _ & _ & _ & _ & later & Ht) Hl].
  destruct (policyBootstrap_last _ _ _ S) as (s2 & Ea).
  destruct dropOrder_known as [Hnd Hin].
  exists c0, w0, later. split_and!; try done.
  by apply apply_nil_active in Ea.
Qed.

(** X13. When the kernel refuses the first query, a non-bypass
    [initialize] returns that error wrapped by [couldNotGetProc], having
    made the mutex and seeded the table, and nothing else: nothing was
    dropped from the bounding set, nothing committed, nothing is Required,
    and the snapshot is nil. *)
Theorem initialize_query_refused (s : State World) (e0 : error) (w : World) :
  initialized (Caps s) = false →
  GetPID (world s) = (inl e0, w) →
  ∃ s', initialize false s = Ret (Some (couldNotGetProc e0)) s' ∧
        world s' = w ∧
        trace s' = EvGetPID false :: trace s ∧
        have (Caps s') = None ∧
        lock (Caps s') = Some (mkMutex false) ∧
        ∀ v t, Membership (Caps s') v t = bool_decide (v < MaxBits ∧ t = Privileged).
Proof.
  intros Hi Eg. pose proof (initialize_false_steps s Hi) as S. rewrite Eg in S.
  eexists. split; [exact S|]. split_and!; try done.
  intros v t. by apply Membership_seedTable.
Qed.

(** X14. When the kernel refuses the first commit, a non-bypass
    [initialize] returns that error wrapped by [couldNotSetProc] after it
    has dropped every capability from the bounding set: the drops are not
    undone, nothing is Required, and no ring was applied. *)
Theorem initialize_commit_refused (s : State World) (c0 : CapSet) (w0 w' : World)
    (e0 : error) :
  initialized (Caps s) = false →
  GetPID (world s) = (inr c0, w0) →
  SetProc c0 (boundDropped w0) = (Some e0, w') →
  ∃ s', initialize false s = Ret (Some (couldNotSetProc e0)) s' ∧
        world s' = w' ∧
        trace s' = EvSetProc c0 false
                     :: rev (EvDropBound <$> dropOrder) ++ EvGetPID true :: trace s ∧
        (∀ v, v < MaxBits → EvDropBound v ∈ trace s') ∧
        lastCommit (trace s') = lastCommit (trace s) ∧
        lock (Caps s') = Some (mkMutex false) ∧
        ∀ v t, Membership (Caps s') v t = bool_decide (v < MaxBits ∧ t = Privileged).
Proof.
  intros Hi Eg Es. pose proof (initialize_false_steps s Hi) as S. rewrite Eg, Es in S.
  eexists. split; [exact S|]. simpl. split_and!; try done.
  - intros v Hv. apply elem_of_cons. right. apply elem_of_app. left.
    apply list_elem_of_In. apply -> in_rev. apply list_elem_of_In, list_elem_of_fmap.
    exists v. split; [done|].
    by apply dropOrder_known.
  - assert (∀ l tr, lastCommit (rev (EvDropBound <$> l) ++ tr) = lastCommit tr) as H.
    { intros l. induction l as [|x l IH]; intros tr; [done|].
      simpl. rewrite <- app_assoc. by rewrite IH. }
    by rewrite H.
  - intros v t. by apply Membership_seedTable.
Qed.

(** ** Run-in-ring methods that return *)

(** The two ways a run-in-ring method returns with bypass inactive: the
    elevating apply failed, or the callback ran and the restoring apply
    was attempted. *)
Lemma run_Ret_inv (op : RingOp) (cb : Callback World) (s s' : State World) r :
  bypass (Caps s) = false →
  run op cb s = Ret r s' →
  lock (Caps s) = Some (mkMutex false) ∧
  ∃ s0, stage op (locking s) = Ret tt s0 ∧
    ((∃ e sa, apply (ringOf op) s0 = Ret (Some e) sa ∧ r = Some e ∧ s' = unlocking sa)
     ∨ (∃ s1 s1' errCb s2 r3 s3,
          apply (ringOf op) s0 = Ret None s1 ∧
          unstage op s1 = Ret tt s1' ∧
          call cb s1' = Ret errCb s2 ∧
          apply Unprivileged s2 = Ret r3 s3 ∧
          r = match r3 with Some e => Some e | None => errCb end ∧
          s' = unlocking s3)).
Proof.
  intros Hb E. rewrite run_elevated in E by done.
  apply guarded_Ret in E as (Hfree & s4 & E & ->); [|apply preserves_elevated_op].
  split; [done|]. fold (locking s) in E. fold (unlocking s4).
  unfold elevated in E.
  apply bind_inv in E as ([] & s0 & Es & E).
  apply bind_inv in E as (err & s1 & Ea & E).
  exists s0. split; [done|].
  destruct err as [e|].
  { left. injection E as <- <-. eauto. }
  right.
  apply bind_inv in E as ([] & s1' & Eu & E).
  apply bind_inv in E as (errCb & s2 & Ec & E).
  apply bind_inv in E as (c & s2' & [= <- <-] & E).
  assert (quiet (locking s) s2) as Q.
  { etrans; [exact (quiet_Ret _ _ _ _ (preserves_stage op) Es)|].
    etrans; [exact (quiet_Ret _ _ _ _ (preserves_apply _) Ea)|].
    etrans; [exact (quiet_Ret _ _ _ _ (preserves_unstage op) Eu)|].
    exact (quiet_Ret _ _ _ _ (preserves_call cb) Ec). }
  rewrite (quiet_bypass _ _ Q) in E. simpl in E. rewrite Hb in E. simpl in E.
  apply bind_inv in E as (r3 & s3 & Er & E).
  exists s1, s1', errCb, s2, r3, s3. split_and!; try done.
  - by destruct r3; injection E as <- _.
  - by destruct r3; injection E as _ <-.
Qed.

Lemma stage_wrote (op : RingOp) (s s0 : State World) :
  stage op s = Ret tt s0 →
  trace s0 = trace s ∧
  ∀ v t, Membership (Caps s0) v t
         = match op with
           | OpRequested values =>
               if decide (v ∈ values ∧ t = Requested) then true else Membership (Caps s) v t
           | _ => Membership (Caps s) v t
           end.
Proof.
  destruct op as [| |values]; simpl; try by intros [= <-].
  intros E. by apply forRange_assign_Ret in E as (_ & ? & _ & _ & _ & _ & _ & _ & ?).
Qed.

Lemma unstage_wrote (op : RingOp) (s s0 : State World) :
  unstage op s = Ret tt s0 →
  trace s0 = trace s ∧
  ∀ v t, Membership (Caps s0) v t
         = match op with
           | OpRequested values =>
               if decide (v ∈ values ∧ t = Requested) then false else Membership (Caps s) v t
           | _ => Membership (Caps s) v t
           end.
Proof.
  destruct op as [| |values]; simpl; try by intros [= <-].
  intros E. by apply forRange_assign_Ret in E as (_ & ? & _ & _ & _ & _ & _ & _ & ?).
Qed.

Lemma apply_same_table t (s s' : State World) r :
  apply t s = Ret r s' →
  ∃ new, trace s' = new ++ trace s ∧ existsb isCallback new = false ∧
         ∀ v t', Membership (Caps s') v t' = Membership (Caps s) v t'.
Proof.
  intros E. destruct (apply_Ret t s) as (r' & s_ & new & E' & Ht & Ha & _ & _ & Hc & _).
  rewrite E in E'. injection E' as <- <-. exists new. split_and!; try done.
  intros v t'. unfold Membership. by rewrite Ha.
Qed.

Lemma call_same_table (cb : Callback World) (s s2 : State World) errCb :
  call cb s = Ret errCb s2 → Caps s2 = Caps s.
Proof. unfold call. destruct (cb (world s)). by intros [= _ <-]. Qed.

(** X15. The table after a run-in-ring method that returns, bypass
    inactive.  [RunPrivileged] and [RunRequired] leave every cell as it
    was.  [RunRequested] leaves every cell as it was but the Requested
    cells of the values passed: those are false if the callback ran, and
    true if it did not (the elevating apply failed). *)
Theorem run_table_effect
    (op : RingOp) (cb : Callback World) (s s' : State World)
    (r : option error) (new : list Event) :
  bypass (Caps s) = false →
  run op cb s = Ret r s' →
  trace s' = new ++ trace s →
  ∀ v t, Membership (Caps s') v t
         = match op with
           | OpRequested values =>
               if decide (v ∈ values ∧ t = Requested)
               then negb (existsb isCallback new)
               else Membership (Caps s) v t
           | _ => Membership (Caps s) v t
           end.
Proof.
  intros Hb E Ht v t.
  destruct (run_Ret_inv op cb s s' r Hb E) as (_ & s0 & Es & H).
  destruct (stage_wrote _ _ _ Es) as [T0 M0].
  destruct H as [(e & sa & Ea & -> & ->) | (s1 & s1' & errCb & s2 & r3 & s3 & Ea & Eu & Ec & Er & -> & ->)].
  - destruct (apply_same_table _ _ _ _ Ea) as (n1 & T1 & Hc1 & M1).
    assert (new = (EvUnlock :: n1) ++ [EvLock]) as ->.
    { apply (app_inv_tail (trace s)). rewrite <- Ht. simpl. rewrite T1, T0. simpl.
      by rewrite <- app_assoc. }
    assert (existsb isCallback ((EvUnlock :: n1) ++ [EvLock]) = false) as ->
      by (rewrite existsb_app; simpl; by rewrite Hc1).
    assert (Membership (Caps (unlocking sa)) v t = Membership (Caps s0) v t) as ->
      by (by rewrite <- M1).
    rewrite M0. by destruct op.
  - destruct (apply_same_table _ _ _ _ Ea) as (n1 & T1 & Hc1 & M1).
    destruct (apply_same_table _ _ _ _ Er) as (n3 & T3 & Hc3 & M3).
    destruct (unstage_wrote _ _ _ Eu) as [Tu Mu].
    assert (new = (EvUnlock :: n3) ++ EvCallback errCb :: n1 ++ [EvLock]) as ->.
    { apply (app_inv_tail (trace s)). rewrite <- Ht. simpl.
      rewrite T3, (call_Ret _ _ _ _ Ec), Tu, T1, T0. simpl.
      rewrite <- !app_assoc. simpl. by rewrite <- !app_assoc. }
    assert (existsb isCallback ((EvUnlock :: n3) ++ EvCallback errCb :: n1 ++ [EvLock])
            = true) as ->
      by (rewrite existsb_app; simpl; by rewrite orb_true_r).
    assert (Membership (Caps (unlocking s3)) v t = Membership (Caps s1') v t) as ->
      by (by rewrite <- (call_same_table _ _ _ _ Ec), <- M3).
    rewrite Mu, M1, M0.
    destruct op as [| |values]; try done.
    by destruct (decide (v ∈ values ∧ t = Requested)).
Qed.

(** ** The steady state *)

Lemma refusal_sublist (a b : list Event) :
  existsb refusal (a ++ b) = false →
  existsb refusal a = false ∧ existsb refusal b = false.
Proof. rewrite existsb_app. by intros [? ?]%orb_false_elim. Qed.

Lemma run_keeps_unprivileged
    (op : RingOp) (cb : Callback World) (s s' : State World) r (new : list Event) :
  bypass (Caps s) = false →
  run op cb s = Ret r s' →
  trace s' = new ++ trace s →
  existsb refusal new = false →
  active Unprivileged s' = true.
Proof.
  intros Hb E Ht Hok.
  destruct (run_Ret_inv op cb s s' r Hb E) as (_ & s0 & Es & H).
  destruct (stage_wrote _ _ _ Es) as [T0 _].
  destruct H as [(e & sa & Ea & -> & ->) | (s1 & s1' & errCb & s2 & r3 & s3 & Ea & Eu & Ec & Er & -> & ->)].
  - exfalso. apply apply_error_refused in Ea as (n1 & T1 & Hr & _).
    assert (new = [EvUnlock] ++ n1 ++ [EvLock]) as ->.
    { apply (app_inv_tail (trace s)). rewrite <- Ht. simpl. rewrite T1, T0. simpl.
      by rewrite <- app_assoc. }
    apply refusal_sublist in Hok as [_ Hok]. apply refusal_sublist in Hok as [Hok _].
    congruence.
  - destruct r3 as [e|].
    + exfalso. apply apply_error_refused in Er as (n3 & T3 & Hr & _).
      assert (∃ rest, trace s2 = rest ++ trace s) as [rest Hrest].
      { destruct (apply_same_table _ _ _ _ Ea) as (n1 & T1 & _).
        destruct (unstage_wrote _ _ _ Eu) as [Tu _].
        exists (EvCallback errCb :: n1 ++ [EvLock]).
        rewrite (call_Ret _ _ _ _ Ec), Tu, T1, T0. simpl. by rewrite <- app_assoc. }
      assert (new = [EvUnlock] ++ n3 ++ rest) as ->.
      { apply (app_inv_tail (trace s)). rewrite <- Ht. simpl. rewrite T3, Hrest.
        by rewrite <- app_assoc. }
      apply refusal_sublist in Hok as [_ Hok]. apply refusal_sublist in Hok as [Hok _].
      congruence.
    + apply apply_nil_active in Er. unfold active, unlocking in *. simpl. exact Er.
Qed.

Lemma mutator_keeps_unprivileged (c : Call World) (s s' : State World) r :
  match c with CallRun _ _ => False | _ => True end →
  bypass (Caps s) = false →
  active Unprivileged s = true →
  exec c s = Ret r s' →
  active Unprivileged s' = true.
Proof.
  intros Hc Hb Ha E.
  pose proof (preserves_exec c s) as F. rewrite E in F. simpl in F.
  apply (active_frame s); [done| |done].
  destruct c as [values|values|op cb]; [| |done]; simpl in E.
  - destruct (Require_Ret _ _ _ _ Hb E) as (_ & _ & _ & _ & ->). done.
  - destruct (Unrequire_Ret _ _ _ _ Hb E) as (_ & _ & _ & _ & ->). done.
Qed.

(** X16. The steady state.  On a manager not in bypass mode whose
    Unprivileged ring is active, after any sequence of [Require],
    [Unrequire] and run-in-ring calls that all returned, during which the
    kernel refused no query and no commit, the Unprivileged ring is active
    again and the mutex is as it was; one result was returned per call. *)
Theorem steady_state_between_calls
    (cs : list (Call World)) (s s' : State World)
    (rs : list (option error)) (new : list Event) :
  bypass (Caps s) = false →
  active Unprivileged s = true →
  execAll cs s = Ret rs s' →
  trace s' = new ++ trace s →
  existsb refusal new = false →
  active Unprivileged s' = true ∧
  lock (Caps s') = lock (Caps s) ∧
  length rs = length cs.
Proof.
  revert s rs new. induction cs as [|c cs IH]; intros s rs new Hb Ha E Ht Hok.
  - injection E as <- <-. by split_and!.
  - cbn [execAll] in E. unfold bind in E.
    destruct (exec c s) as [r sa| |] eqn:Ec; [|done|done].
    destruct (execAll cs sa) as [rs' sb| |] eqn:Ecs; [|done|done].
    injection E as <- <-.
    destruct (preservesRet_exec c _ _ _ Ec) as [(_ & Hba & _ & _ & _ & na & Tna) Hla].
    destruct (preservesRet_execAll cs _ _ _ Ecs) as [(_ & _ & _ & _ & _ & nb & Tnb) _].
    assert (new = nb ++ na) as ->.
    { apply (app_inv_tail (trace s)). by rewrite <- Ht, Tnb, Tna, app_assoc. }
    apply refusal_sublist in Hok as [Hokb Hoka].
    assert (active Unprivileged sa = true) as Haa.
    { destruct c as [values|values|op cb].
      - by apply (mutator_keeps_unprivileged (CallRequire values) s sa r).
      - by apply (mutator_keeps_unprivileged (CallUnrequire values) s sa r).
      - by apply (run_keeps_unprivileged op cb s sa r na). }
    destruct (IH sa rs' nb) as (H1 & H2 & H3); try done.
    { by rewrite Hba. }
    split_and!; [done | by rewrite H2 | simpl; by rewrite H3].
Qed.

(** ** More on name resolution *)

Lemma ReqByStringFrom_cons given rest acc :
  ReqByStringFrom (given :: rest) acc
  = if existsb (λ v, String.eqb (capString v) given) (seq 0 MaxBits)
    then ReqByStringFrom rest
           (acc ++ List.filter (λ v, String.eqb (capString v) given) (seq 0 MaxBits))
    else ([], Some (couldNotFindCapability given)).
Proof. cbn [ReqByStringFrom]. by rewrite scanValues_filter. Qed.

(** The list built so far only prefixes the result, and is dropped on
    failure. *)
Lemma ReqByStringFrom_acc (values : list string) (acc : list Value) :
  ReqByStringFrom values acc
  = match ReqByString values with
    | (caps, None) => (acc ++ caps, None)
    | (_, Some e) => ([], Some e)
    end.
Proof.
  unfold ReqByString. revert acc. induction values as [|given rest IH]; intros acc.
  - simpl. by rewrite app_nil_r.
  - rewrite !ReqByStringFrom_cons. destruct (existsb _ _); [|done].
    rewrite (IH (acc ++ _)), (IH ([] ++ _)).
    destruct (ReqByStringFrom rest []) as [caps [e|]]; [done|].
    by rewrite app_assoc.
Qed.

Lemma ReqByStringFrom_app (a b : list string) (acc : list Value) :
  ReqByStringFrom (a ++ b) acc
  = match ReqByStringFrom a acc with
    | (ca, None) => ReqByStringFrom b ca
    | (x, Some e) => (x, Some e)
    end.
Proof.
  revert acc. induction a as [|given a IH]; intros acc; [done|].
  rewrite <- app_comm_cons, !ReqByStringFrom_cons.
  destruct (existsb _ _); [apply IH | done].
Qed.

(** X17. Resolving two lists of names in one call is resolving them one
    after the other: the result is the two results appended when both
    succeed, and otherwise the nil list with the error of the first list
    that fails. *)
Theorem ReqByString_app (a b : list string) :
  ReqByString (a ++ b)
  = match ReqByString a, ReqByString b with
    | (ca, None), (cb, None) => (ca ++ cb, None)
    | (_, Some e), _ => ([], Some e)
    | (_, None), (_, Some e) => ([], Some e)
    end.
Proof.
  unfold ReqByString at 1. rewrite ReqByStringFrom_app.
  change (ReqByStringFrom a []) with (ReqByString a).
  pose proof (ReqByStringFrom_acc a []) as Ha.
  change (ReqByStringFrom a []) with (ReqByString a) in Ha.
  destruct (ReqByString a) as [ca [e|]].
  - by injection Ha as ->.
  - rewrite ReqByStringFrom_acc. by destruct (ReqByString b) as [cb [e|]].
Qed.

Lemma filter_none {A} (p : A → bool) (l : list A) :
  (∀ x, In x l → p x = false) → List.filter p l = [].
Proof.
  induction l as [|x l IH]; intros H; [done|].
  simpl. rewrite (H x (or_introl eq_refl)). apply IH. intros y Hy. apply H. by right.
Qed.

Lemma filter_seq_unique (p : nat → bool) (n v : nat) :
  v < n →
  (∀ x, x < n → p x = true ↔ x = v) →
  List.filter p (seq 0 n) = [v].
Proof.
  intros Hv Hp.
  replace n with (v + (1 + (n - S v))) by lia.
  rewrite !seq_app, !List.filter_app. simpl.
  assert (p v = true) as -> by (by apply Hp).
  rewrite !filter_none; [done | |].
  - intros x Hx%in_seq. destruct (p x) eqn:E; [|done].
    apply Hp in E; lia.
  - intros x Hx%in_seq. destruct (p x) eqn:E; [|done].
    apply Hp in E; lia.
Qed.

Lemma hits_unique (v : Value) :
  namesDistinct → v < MaxBits →
  List.filter (λ x, String.eqb (capString x) (capString v)) (seq 0 MaxBits) = [v] ∧
  existsb (λ x, String.eqb (capString x) (capString v)) (seq 0 MaxBits) = true.
Proof.
  intros Hd Hv. split.
  - apply filter_seq_unique; [done|]. intros x Hx. rewrite String.eqb_eq. split.
    + intros E. by apply Hd.
    + by intros ->.
  - apply existsb_exists. exists v. split; [apply in_seq; lia | by apply String.eqb_eq].
Qed.

Lemma ReqByString_names (vs : list Value) :
  namesDistinct →
  Forall (λ v, v < MaxBits) vs →
  ReqByString (capString <$> vs) = (vs, None).
Proof.
  intros Hd. induction vs as [|v vs IH]; intros Hvs; [done|].
  apply Forall_cons in Hvs as [Hv Hvs].
  unfold ReqByString. rewrite fmap_cons, ReqByStringFrom_cons.
  destruct (hits_unique v Hd Hv) as [-> ->].
  rewrite ReqByStringFrom_acc, (IH Hvs). done.
Qed.

(** X18. Names and values go round.  When no two known capabilities
    share a name, resolving the names of known capabilities gives those
    capabilities back, in order and with their repetitions; so resolving
    what [ListAvailCaps] lists gives every capability from 0 up to
    [MaxBits]. *)
Theorem ReqByString_roundtrip (vs : list Value) :
  namesDistinct →
  Forall (λ v, v < MaxBits) vs →
  ReqByString (capString <$> vs) = (vs, None) ∧
  ReqByString ListAvailCaps = (seq 0 MaxBits, None).
Proof.
  intros Hd Hvs. split; [by apply ReqByString_names|].
  apply (ReqByString_names (seq 0 MaxBits) Hd).
  apply Forall_forall. intros v Hv%elem_of_seq. lia.
Qed.

Lemma ReqByStringFrom_complete (values : list string) (acc caps : list Value) (v : Value) :
  ReqByStringFrom values acc = (caps, None) →
  v < MaxBits → capString v ∈ values → v ∈ caps.
Proof.
  revert acc. induction values as [|given rest IH]; intros acc E Hv Hin.
  - by apply elem_of_nil in Hin.
  - rewrite ReqByStringFrom_cons in E. destruct (existsb _ _); [|done].
    apply elem_of_cons in Hin as [Hg|Hin]; [|by eapply IH].
    rewrite ReqByStringFrom_acc in E.
    destruct (ReqByString rest) as [caps' [e|]]; [done|]. injection E as <-.
    apply elem_of_app. left. apply elem_of_app. right.
    apply list_elem_of_In, filter_In. split; [apply in_seq; lia|].
    by apply String.eqb_eq.
Qed.

(** X19. [ListAvailCaps] lists [MaxBits] names, the name of capability
    [i] at position [i]; whatever the platform's names are, every one of
    them resolves, and resolving the whole list returns exactly the
    capabilities below [MaxBits]. *)
Theorem ListAvailCaps_resolves :
  length ListAvailCaps = MaxBits ∧
  (∀ i, i < MaxBits → ListAvailCaps !! i = Some (capString i)) ∧
  ∃ caps, ReqByString ListAvailCaps = (caps, None) ∧
          ∀ v, v ∈ caps ↔ v < MaxBits.
Proof.
  unfold ListAvailCaps. split_and!.
  - by rewrite length_map, length_seq.
  - intros i Hi. change (map capString (seq 0 MaxBits)) with (capString <$> seq 0 MaxBits).
    rewrite list_lookup_fmap, lookup_seq_lt by done. done.
  - destruct (ReqByStringFrom_spec (map capString (seq 0 MaxBits)) [])
      as [(caps & E & _ & _ & Hcaps) | (pre & bad & post & Hv & _ & Hbad & _)].
    + exists caps. split; [exact E|]. intros v. split; [by intros [? _]%Hcaps|].
      intros Hv. eapply ReqByStringFrom_complete; [exact E | done |].
      apply list_elem_of_In, in_map, in_seq. lia.
    + exfalso. apply Hbad.
      assert (In bad (map capString (seq 0 MaxBits))) as Hin
        by (rewrite Hv; apply in_elt).
      apply in_map_iff in Hin as (v & <- & Hs%in_seq). exists v. split; [lia | done].
Qed.

(** ** Starting over *)

(** X20. [NewCapabilities false] forgets the manager it finds, whatever
    state that was in.  Where the query and the first commit succeed, it
    returns exactly when every capability the bootstrap requires is below
    [MaxBits]: otherwise a [Require] of the bootstrap writes to a nil inner
    map. *)
Theorem NewCapabilities_returns_iff_known
    (s : State World) (c0 : CapSet) (w0 w' : World) :
  GetPID (world s) = (inr c0, w0) →
  SetProc c0 (boundDropped w0) = (None, w') →
  (∃ r s', NewCapabilities false s = Ret r s') ↔
  Forall (λ v, v < MaxBits)
         (bootstrapValues (paranoidValueIn w').1 (GetFlag c0 Permitted BPF)).
Proof.
  intros Eg Es.
  set (s0 := with_Caps (λ _, zeroCapabilities) s).
  assert (NewCapabilities false s = initialize false s0) as ->.
  { unfold NewCapabilities.
    by rewrite (bind_Ret (modifyCaps (λ _, zeroCapabilities)) _ s tt s0 eq_refl). }
  pose proof (initialize_false_steps s0 eq_refl) as S.
  change (world s0) with (world s) in S. rewrite Eg, Es in S. rewrite S.
  set (sb := mkState (seededCaps (Caps s0) (Some c0)) w' _).
  assert (known (bootstrapValues (paranoidValueIn w').1 (GetFlag c0 Permitted BPF)) sb
          ↔ Forall (λ v, v < MaxBits)
              (bootstrapValues (paranoidValueIn w').1 (GetFlag c0 Permitted BPF))) as Hk.
  { unfold known. apply Forall_proper; [|done]. intros v.
    change (all (Caps sb)) with (seedTable MaxBits).
    rewrite elem_of_dom, seedTable_lookup. destruct (decide (v < MaxBits)).
    - split; [done | by eexists].
    - split; [by intros [? ?] | done]. }
  rewrite <- Hk. split.
  - intros (r & s' & E). by destruct (policyBootstrap_Ret_known sb s' r eq_refl E).
  - intros Hkn. destruct (policyBootstrap_known sb eq_refl eq_refl Hkn) as (? & r & s' & _ & E & _).
    by exists r, s'.
Qed.

End Properties.

(** * On the Linux instance *)

(** C1, at a [RunRequested] whose callback fails. *)
Lemma callback_result_after_restore_witness :
  let s := booted (Some ("2" +:+ newline)) [] in
  let op := OpRequested [SYS_ADMIN] in
  let sl := final (Lock s) in
  let s0 := final (stage op sl) in
  let s1 := final (apply (ringOf op) s0) in
  (bypass (Caps s) = false ∧ Lock s = Ret tt sl ∧ stage op sl = Ret tt s0 ∧
   apply (ringOf op) s0 = Ret None s1) ∧
  ∃ s1' errCb s2 r s3 s4,
    unstage op s1 = Ret tt s1' ∧
    call cbFail s1' = Ret errCb s2 ∧
    apply Unprivileged s2 = Ret r s3 ∧
    Unlock s3 = Ret tt s4 ∧
    run op cbFail s = Ret (match r with Some e => Some e | None => errCb end) s4.
Proof.
  intros s op sl s0 s1.
  assert (bypass (Caps s) = false) as H1 by (vm_compute; reflexivity).
  assert (Lock s = Ret tt sl) as H2 by (vm_compute; reflexivity).
  assert (stage op sl = Ret tt s0) as H3 by (vm_compute; reflexivity).
  assert (apply (ringOf op) s0 = Ret None s1) as H4 by (vm_compute; reflexivity).
  split; [split_and!; assumption |].
  exact (callback_result_after_restore op cbFail s sl s0 s1 H1 H2 H3 H4).
Defined.

(** C2 as stated fails: with the tunable at 3 and BPF permitted, the
    bootstrap adds BPF and PERFMON to the Required ring; the same bootstrap
    for a process without BPF does not, so the permitted set was
    consulted. *)
Lemma paranoid_bootstrap_adds_bpf :
  let s := seeded (rootWorld (Some ("3" +:+ newline)) []) in
  let s_ := seeded (withoutBPF (rootWorld (Some ("3" +:+ newline)) [])) in
  paranoidValueIn (world s) = (3%Z, None) ∧
  Membership (Caps s) BPF Required = false ∧
  Membership (Caps s) PERFMON Required = false ∧
  match policyBootstrap s with
  | Ret None s' =>
      Membership (Caps s') BPF Required = true ∧
      Membership (Caps s') PERFMON Required = true
  | _ => False
  end ∧
  match policyBootstrap s_ with
  | Ret None s' =>
      Membership (Caps s') BPF Required = false ∧
      Membership (Caps s') PERFMON Required = false
  | _ => False
  end ∧
  Membership (Caps (booted (Some ("3" +:+ newline)) [])) BPF Required = true.
Proof. vm_compute. repeat split; reflexivity. Qed.

(** C2, amended, at a root process with the tunable at 3. *)
Lemma paranoid_bootstrap_goes_on_to_bpf_witness :
  let s := seeded (rootWorld (Some ("3" +:+ newline)) []) in
  (bypass (Caps s) = false ∧
   lock (Caps s) = Some (mkMutex false) ∧
   (2 < (paranoidValueIn (world s)).1)%Z ∧
   known (bootstrapValues (paranoidValueIn (world s)).1
                          (haveGetFlag (Caps s) Permitted BPF)) s) ∧
  ∃ r s',
    policyBootstrap s = Ret r s' ∧
    Membership (Caps s') SYS_ADMIN Required = true ∧
    (if haveGetFlag (Caps s) Permitted BPF
     then Membership (Caps s') BPF Required = true ∧
          Membership (Caps s') PERFMON Required = true
     else ∀ v, v ∉ [IPC_LOCK; SYS_RESOURCE; SYS_ADMIN] →
               Membership (Caps s') v Required = Membership (Caps s) v Required) ∧
    (∀ v, v ∉ [IPC_LOCK; SYS_RESOURCE; SYS_ADMIN; BPF; PERFMON] →
          Membership (Caps s') v Required = Membership (Caps s) v Required).
Proof.
  intros s.
  assert (bypass (Caps s) = false) as H1 by (vm_compute; reflexivity).
  assert (lock (Caps s) = Some (mkMutex false)) as H2 by (vm_compute; reflexivity).
  assert (2 < (paranoidValueIn (world s)).1)%Z as H3 by (vm_compute; reflexivity).
  assert (known (bootstrapValues (paranoidValueIn (world s)).1
                                 (haveGetFlag (Caps s) Permitted BPF)) s) as H4
    by (apply (bool_decide_unpack _); vm_compute; exact I).
  split; [split_and!; assumption |].
  exact (paranoid_bootstrap_goes_on_to_bpf s H1 H2 H3 H4).
Defined.

(** C3: the second [initialize false] on the same manager returns [nil],
    not the already-initialized error: the flag is still unset after the
    first.  It rebuilds the table (a capability required in between is no
    longer Required) and drops the bounding set again.  The same holds
    through [NewCapabilities], which moreover resets the manager. *)
Lemma second_initialize_is_not_refused :
  match initialize false (freshState (rootWorld (Some ("2" +:+ newline)) [])) with
  | Ret None s1 =>
      initialized (Caps s1) = false ∧
      match Require [0] s1 with
      | Ret None s1' =>
          Membership (Caps s1') 0 Required = true ∧
          match initialize false s1' with
          | Ret r s2 =>
              r = None ∧
              Membership (Caps s2) 0 Required = false ∧
              bool_decide (EvDropBound 0
                ∈ take (length (trace s2) - length (trace s1')) (trace s2)) = true
          | _ => False
          end ∧
          match NewCapabilities false s1' with
          | Ret r s2 =>
              r = None ∧
              Membership (Caps s2) 0 Required = false ∧
              bool_decide (EvDropBound 0
                ∈ take (length (trace s2) - length (trace s1')) (trace s2)) = true
          | _ => False
          end
      | _ => False
      end
  | _ => False
  end.
Proof. vm_compute. repeat split; reflexivity. Qed.

(** C4: when the kernel refuses the query of [apply Requested], the call
    returns that error with the value still in the Requested column. *)
Lemma requested_stays_staged_when_apply_refused :
  let s := booted (Some ("2" +:+ newline)) [false; false; false; false; true] in
  bypass (Caps s) = false ∧
  Membership (Caps s) SYS_ADMIN Requested = false ∧
  match RunRequested cbOk [SYS_ADMIN] s with
  | Ret r s' =>
      r = Some (couldNotGetProc EPERM) ∧
      Membership (Caps s') SYS_ADMIN Requested = true
  | _ => False
  end.
Proof. vm_compute. repeat split; reflexivity. Qed.



(** C6, at a run of calls the last of which panics. *)
Lemma privileged_unprivileged_columns_fixed_witness :
  let s0 := freshState (rootWorld (Some ("2" +:+ newline)) []) in
  let s1 := final (initialize false s0) in
  let cs := [CallRequire [BPF]; CallUnrequire [SYS_ADMIN];
             CallRun (OpRequested [SYS_ADMIN]) cbFail;
             CallRun OpPrivileged cbOk; CallRequire [41]] in
  initialize false s0 = Ret None s1 ∧
  (SYS_ADMIN < MaxBits →
     Membership (Caps (final (execAll cs s1))) SYS_ADMIN Privileged = true ∧
     Membership (Caps (final (execAll cs s1))) SYS_ADMIN Unprivileged = false) ∧
  Membership (Caps (final (execAll cs s1))) SYS_ADMIN Privileged
    = Membership (Caps s1) SYS_ADMIN Privileged ∧
  Membership (Caps (final (execAll cs s1))) SYS_ADMIN Unprivileged
    = Membership (Caps s1) SYS_ADMIN Unprivileged.
Proof.
  intros s0 s1 cs.
  assert (initialize false s0 = Ret None s1) as H1 by (vm_compute; reflexivity).
  split; [assumption |].
  exact (privileged_unprivileged_columns_fixed s0 s1 cs SYS_ADMIN H1).
Defined.

(** C8, at a root process whose tunable file cannot be read. *)
Lemma unusable_tunable_is_most_paranoid_witness :
  let s := seeded (rootWorld None []) in
  (bypass (Caps s) = false ∧
   lock (Caps s) = Some (mkMutex false) ∧
   tunableUnusable (world s) ∧
   known (bootstrapValues 4 (haveGetFlag (Caps s) Permitted BPF)) s) ∧
  paranoidValueIn (world s) = (4%Z, Some couldNotReadPerfEventParanoid) ∧
  ∃ s1 r s',
    apply Unprivileged s1 = Ret r s' ∧
    policyBootstrap s = Ret r s' ∧
    Membership (Caps s') IPC_LOCK Required = true ∧
    Membership (Caps s') SYS_RESOURCE Required = true ∧
    Membership (Caps s') SYS_ADMIN Required = true ∧
    ∀ (s2 : State Linux) (p : Z),
      Caps s2 = Caps s →
      paranoidValueIn (world s2) = (p, None) →
      (2 < p)%Z →
      ∃ r2 s2',
        policyBootstrap s2 = Ret r2 s2' ∧
        ∀ v t, Membership (Caps s2') v t = Membership (Caps s') v t.
Proof.
  intros s.
  assert (bypass (Caps s) = false) as H1 by (vm_compute; reflexivity).
  assert (lock (Caps s) = Some (mkMutex false)) as H2 by (vm_compute; reflexivity).
  assert (tunableUnusable (world s)) as H3 by (vm_compute; exact I).
  assert (known (bootstrapValues 4 (haveGetFlag (Caps s) Permitted BPF)) s) as H4
    by (apply (bool_decide_unpack _); vm_compute; exact I).
  split; [split_and!; assumption |].
  exact (unusable_tunable_is_most_paranoid s H1 H2 H3 H4).
Defined.

(** C10, at the first value the platform does not know. *)
Lemma unknown_value_panics_witness :
  let s0 := freshState (rootWorld (Some ("2" +:+ newline)) []) in
  let s1 := final (NewCapabilities false s0) in
  let cs := [CallRequire [SYS_ADMIN]; CallRun OpRequired cbOk] in
  let s2 := final (execAll cs s1) in
  let values := [IPC_LOCK; 41] in
  (NewCapabilities false s0 = Ret None s1 ∧
   execAll cs s1 = Ret [None; None] s2 ∧
   41 ∈ values ∧ (MaxBits ≤ 41)%nat) ∧
  (∃ s', Require values s2 = Panic nilMapAssignment s') ∧
  (∃ s', Unrequire values s2 = Panic nilMapAssignment s') ∧
  (∃ s', RunRequested cbOk values s2 = Panic nilMapAssignment s').
Proof.
  intros s0 s1 cs s2 values.
  assert (NewCapabilities false s0 = Ret None s1) as H1 by (vm_compute; reflexivity).
  assert (execAll cs s1 = Ret [None; None] s2) as H2 by (vm_compute; reflexivity).
  assert (41 ∈ values) as H3 by (apply (bool_decide_unpack _); vm_compute; exact I).
  assert (MaxBits ≤ 41)%nat as H4 by (simpl; lia).
  split; [split_and!; assumption |].
  exact (unknown_value_panics s0 s1 s2 cs [None; None] values 41 cbOk H1 H2 H3 H4).
Defined.

(** ** More of the package, on the Linux instance *)

(** X1, at a root process requiring SYS_ADMIN. *)
Lemma Require_returns_witness :
  let s := booted (Some ("2" +:+ newline)) [] in
  let values := [SYS_ADMIN] in
  let s' := final (Require values s) in
  (bypass (Caps s) = false ∧ Require values s = Ret None s') ∧
  (@None error = None ∧
   lock (Caps s) = Some (mkMutex false) ∧
   lock (Caps s') = Some (mkMutex false) ∧
   (∀ v, v ∈ values → v ∈ dom (all (Caps s))) ∧
   dom (all (Caps s')) = dom (all (Caps s)) ∧
   (∀ v t, Membership (Caps s') v t
           = if decide (v ∈ values ∧ t = Required) then true else Membership (Caps s) v t) ∧
   world s' = world s ∧
   have (Caps s') = have (Caps s) ∧
   trace s' = EvUnlock :: EvLock :: trace s).
Proof.
  intros s values s'.
  assert (bypass (Caps s) = false) as H1 by (vm_compute; reflexivity).
  assert (Require values s = Ret None s') as H2 by (vm_compute; reflexivity).
  split; [split_and!; assumption |].
  exact (Require_returns values s s' None H1 H2).
Defined.

(** X2, at a root process giving up IPC_LOCK, which the bootstrap
    required. *)
Lemma Unrequire_returns_witness :
  let s := booted (Some ("2" +:+ newline)) [] in
  let values := [IPC_LOCK] in
  let s' := final (Unrequire values s) in
  (bypass (Caps s) = false ∧ Unrequire values s = Ret None s') ∧
  (@None error = None ∧
   lock (Caps s) = Some (mkMutex false) ∧
   lock (Caps s') = Some (mkMutex false) ∧
   (∀ v, v ∈ values → v ∈ dom (all (Caps s))) ∧
   dom (all (Caps s')) = dom (all (Caps s)) ∧
   (∀ v t, Membership (Caps s') v t
           = if decide (v ∈ values ∧ t = Required) then false else Membership (Caps s) v t) ∧
   world s' = world s ∧
   have (Caps s') = have (Caps s) ∧
   trace s' = EvUnlock :: EvLock :: trace s).
Proof.
  intros s values s'.
  assert (bypass (Caps s) = false) as H1 by (vm_compute; reflexivity).
  assert (Unrequire values s = Ret None s') as H2 by (vm_compute; reflexivity).
  split; [split_and!; assumption |].
  exact (Unrequire_returns values s s' None H1 H2).
Defined.

(** X3, at [Require] then [Unrequire] of IPC_LOCK, which was Required
    before the two calls and is not after them. *)
Lemma Require_Unrequire_compose_witness :
  let s := booted (Some ("2" +:+ newline)) [] in
  let values := [IPC_LOCK] in
  let s1 := final (Require values s) in
  (bypass (Caps s) = false ∧ Require values s = Ret None s1) ∧
  ∃ s2, Unrequire values s1 = Ret None s2 ∧
        ∀ v t, Membership (Caps s2) v t
               = if decide (v ∈ values ∧ t = Required) then negb true
                 else Membership (Caps s) v t.
Proof.
  intros s values s1.
  assert (bypass (Caps s) = false) as H1 by (vm_compute; reflexivity).
  assert (Require values s = Ret None s1) as H2 by (vm_compute; reflexivity).
  split; [split_and!; assumption |].
  exact (Require_Unrequire_compose true values s s1 None H1 H2).
Defined.

(** X4, at a [Require] of IPC_LOCK, 41 and SYS_ADMIN. *)
Lemma mutator_panic_keeps_mutex_witness :
  let s := booted (Some ("2" +:+ newline)) [] in
  let pre := [IPC_LOCK] in
  let post := [SYS_ADMIN] in
  (bypass (Caps s) = false ∧
   lock (Caps s) = Some (mkMutex false) ∧
   known pre s ∧
   41 ∉ dom (all (Caps s))) ∧
  ∃ s', Require (pre ++ 41 :: post) s = Panic nilMapAssignment s' ∧
        lock (Caps s') = Some (mkMutex true) ∧
        (∀ v t, Membership (Caps s') v t
                = if decide (v ∈ pre ∧ t = Required) then true
                  else Membership (Caps s) v t) ∧
        ∀ c, exec c s' = Block s'.
Proof.
  intros s pre post.
  assert (bypass (Caps s) = false) as H1 by (vm_compute; reflexivity).
  assert (lock (Caps s) = Some (mkMutex false)) as H2 by (vm_compute; reflexivity).
  assert (known pre s) as H3 by (apply (bool_decide_unpack _); vm_compute; exact I).
  assert (41 ∉ dom (all (Caps s))) as H4
    by (apply (bool_decide_unpack _); vm_compute; exact I).
  split; [split_and!; assumption |].
  exact (mutator_panic_keeps_mutex true pre post 41 s H1 H2 H3 H4).
Defined.

(** X5, at a [RunRequested] of IPC_LOCK, 41 and SYS_ADMIN. *)
Lemma RunRequested_panic_releases_mutex_witness :
  let s := booted (Some ("2" +:+ newline)) [] in
  let pre := [IPC_LOCK] in
  let post := [SYS_ADMIN] in
  (bypass (Caps s) = false ∧
   lock (Caps s) = Some (mkMutex false) ∧
   known pre s ∧
   41 ∉ dom (all (Caps s))) ∧
  ∃ s', RunRequested cbOk (pre ++ 41 :: post) s = Panic nilMapAssignment s' ∧
        lock (Caps s') = Some (mkMutex false) ∧
        world s' = world s ∧
        trace s' = EvUnlock :: EvLock :: trace s ∧
        ∀ v t, Membership (Caps s') v t
               = if decide (v ∈ pre ∧ t = Requested) then true
                 else Membership (Caps s) v t.
Proof.
  intros s pre post.
  assert (bypass (Caps s) = false) as H1 by (vm_compute; reflexivity).
  assert (lock (Caps s) = Some (mkMutex false)) as H2 by (vm_compute; reflexivity).
  assert (known pre s) as H3 by (apply (bool_decide_unpack _); vm_compute; exact I).
  assert (41 ∉ dom (all (Caps s))) as H4
    by (apply (bool_decide_unpack _); vm_compute; exact I).
  split; [split_and!; assumption |].
  exact (RunRequested_panic_releases_mutex cbOk pre post 41 s H1 H2 H3 H4).
Defined.

(** X6, at a manager whose mutex a call in progress holds. *)
Lemma held_mutex_blocks_witness :
  let s := locking (booted (Some ("2" +:+ newline)) []) in
  let c := CallRun OpPrivileged cbOk in
  (bypass (Caps s) = false ∧ lock (Caps s) = Some (mkMutex true)) ∧
  exec c s = Block s.
Proof.
  intros s c.
  assert (bypass (Caps s) = false) as H1 by (vm_compute; reflexivity).
  assert (lock (Caps s) = Some (mkMutex true)) as H2 by (vm_compute; reflexivity).
  split; [split_and!; assumption |].
  exact (held_mutex_blocks c s H1 H2).
Defined.


(** X8, at a [RunRequested] of SYS_ADMIN. *)
Lemma ring_seen_by_callback_witness :
  let s := booted (Some ("2" +:+ newline)) [] in
  let op := OpRequested [SYS_ADMIN] in
  let s' := final (run op cbOk s) in
  let new := take (length (trace s') - length (trace s)) (trace s') in
  (bypass (Caps s) = false ∧
   run op cbOk s = Ret None s' ∧
   trace s' = new ++ trace s ∧
   existsb isCallback new = true) ∧
  ∃ c, lastCommit (beforeCallback (trace s')) = Some c ∧
       ∀ k, k ∈ dom (all (Caps s)) →
            GetFlag c Effective k = elevatedFlag op (Caps s) k.
Proof.
  intros s op s' new.
  assert (bypass (Caps s) = false) as H1 by (vm_compute; reflexivity).
  assert (run op cbOk s = Ret None s') as H2 by (vm_compute; reflexivity).
  assert (trace s' = new ++ trace s) as H3 by (vm_compute; reflexivity).
  assert (existsb isCallback new = true) as H4 by (vm_compute; reflexivity).
  split; [split_and!; assumption |].
  exact (ring_seen_by_callback op cbOk s s' None new H1 H2 H3 H4).
Defined.

(** X10, at an [apply Required] of a root process. *)
Lemma apply_writes_effective_only_witness :
  let s := booted (Some ("2" +:+ newline)) [] in
  let t := Required in
  let c0 := kernel (world s) in
  let w := world s in
  let s' := final (apply t s) in
  (GetPID (world s) = (inr c0, w) ∧ apply t s = Ret None s') ∧
  ∃ c, have (Caps s') = Some c ∧
       lastCommit (trace s') = Some c ∧
       permitted c = permitted c0 ∧
       inheritable c = inheritable c0 ∧
       (∀ k, k ∈ dom (all (Caps s)) → GetFlag c Effective k = Membership (Caps s) k t) ∧
       (∀ k, k ∉ dom (all (Caps s)) → GetFlag c Effective k = GetFlag c0 Effective k).
Proof.
  intros s t c0 w s'.
  assert (GetPID (world s) = (inr c0, w)) as H1 by (vm_compute; reflexivity).
  assert (apply t s = Ret None s') as H2 by (vm_compute; reflexivity).
  split; [split_and!; assumption |].
  exact (apply_writes_effective_only t s s' c0 w H1 H2).
Defined.

(** X11, at a root process with the tunable at 2. *)
Lemma initialize_table_witness :
  let s0 := freshState (rootWorld (Some ("2" +:+ newline)) []) in
  let s1 := final (initialize false s0) in
  (bypass (Caps s0) = false ∧ initialize false s0 = Ret None s1) ∧
  ∃ c0 w0 w',
    GetPID (world s0) = (inr c0, w0) ∧
    SetProc c0 (boundDropped w0) = (None, w') ∧
    ∀ v t, Membership (Caps s1) v t
           = match t with
             | Privileged => bool_decide (v < MaxBits)
             | Required =>
                 bool_decide (v ∈ bootstrapValues (paranoidValueIn w').1
                                                  (GetFlag c0 Permitted BPF))
             | _ => false
             end.
Proof.
  intros s0 s1.
  assert (bypass (Caps s0) = false) as H1 by (vm_compute; reflexivity).
  assert (initialize false s0 = Ret None s1) as H2 by (vm_compute; reflexivity).
  split; [split_and!; assumption |].
  exact (initialize_table s0 s1 H1 H2).
Defined.

(** X12, at a root process with the tunable at 3. *)
Lemma initialize_steady_state_witness :
  let s0 := freshState (rootWorld (Some ("3" +:+ newline)) []) in
  let s1 := final (initialize false s0) in
  initialize false s0 = Ret None s1 ∧
  ∃ c0 w0 later,
    GetPID (world s0) = (inr c0, w0) ∧
    trace s1 = later ++ EvSetProc c0 true
                 :: rev (EvDropBound <$> dropOrder) ++ EvGetPID true :: trace s0 ∧
    NoDup dropOrder ∧
    (∀ v, v ∈ dropOrder ↔ v < MaxBits) ∧
    active Unprivileged s1 = true ∧
    lock (Caps s1) = Some (mkMutex false).
Proof.
  intros s0 s1.
  assert (initialize false s0 = Ret None s1) as H1 by (vm_compute; reflexivity).
  split; [assumption |].
  exact (initialize_steady_state s0 s1 H1).
Defined.

(** X13, at a kernel that refuses the first query. *)
Lemma initialize_query_refused_witness :
  let s := freshState (rootWorld (Some ("2" +:+ newline)) [true]) in
  let w := rootWorld (Some ("2" +:+ newline)) [] in
  (initialized (Caps s) = false ∧ GetPID (world s) = (inl EPERM, w)) ∧
  ∃ s', initialize false s = Ret (Some (couldNotGetProc EPERM)) s' ∧
        world s' = w ∧
        trace s' = EvGetPID false :: trace s ∧
        have (Caps s') = None ∧
        lock (Caps s') = Some (mkMutex false) ∧
        ∀ v t, Membership (Caps s') v t = bool_decide (v < MaxBits ∧ t = Privileged).
Proof.
  intros s w.
  assert (initialized (Caps s) = false) as H1 by (vm_compute; reflexivity).
  assert (GetPID (world s) = (inl EPERM, w)) as H2 by (vm_compute; reflexivity).
  split; [split_and!; assumption |].
  exact (initialize_query_refused s EPERM w H1 H2).
Defined.

(** X14, at a kernel that answers the query and refuses the commit. *)
Lemma initialize_commit_refused_witness :
  let s := freshState (rootWorld (Some ("2" +:+ newline)) [false; true]) in
  let w0 := rootWorld (Some ("2" +:+ newline)) [true] in
  let c0 := kernel w0 in
  let w' := (SetProc c0 (boundDropped w0)).2 in
  (initialized (Caps s) = false ∧
   GetPID (world s) = (inr c0, w0) ∧
   SetProc c0 (boundDropped w0) = (Some EPERM, w')) ∧
  ∃ s', initialize false s = Ret (Some (couldNotSetProc EPERM)) s' ∧
        world s' = w' ∧
        trace s' = EvSetProc c0 false
                     :: rev (EvDropBound <$> dropOrder) ++ EvGetPID true :: trace s ∧
        (∀ v, v < MaxBits → EvDropBound v ∈ trace s') ∧
        lastCommit (trace s') = lastCommit (trace s) ∧
        lock (Caps s') = Some (mkMutex false) ∧
        ∀ v t, Membership (Caps s') v t = bool_decide (v < MaxBits ∧ t = Privileged).
Proof.
  intros s w0 c0 w'.
  assert (initialized (Caps s) = false) as H1 by (vm_compute; reflexivity).
  assert (GetPID (world s) = (inr c0, w0)) as H2 by (vm_compute; reflexivity).
  assert (SetProc c0 (boundDropped w0) = (Some EPERM, w')) as H3
    by (vm_compute; reflexivity).
  split; [split_and!; assumption |].
  exact (initialize_commit_refused s c0 w0 w' EPERM H1 H2 H3).
Defined.

(** X15, at a [RunRequested] of SYS_ADMIN whose callback runs. *)
Lemma run_table_effect_witness :
  let s := booted (Some ("2" +:+ newline)) [] in
  let values := [SYS_ADMIN] in
  let s' := final (run (OpRequested values) cbFail s) in
  let new := take (length (trace s') - length (trace s)) (trace s') in
  (bypass (Caps s) = false ∧
   run (OpRequested values) cbFail s = Ret (Some "callback failed") s' ∧
   trace s' = new ++ trace s) ∧
  ∀ v t, Membership (Caps s') v t
         = if decide (v ∈ values ∧ t = Requested)
           then negb (existsb isCallback new)
           else Membership (Caps s) v t.
Proof.
  intros s values s' new.
  assert (bypass (Caps s) = false) as H1 by (vm_compute; reflexivity).
  assert (run (OpRequested values) cbFail s = Ret (Some "callback failed") s') as H2
    by (vm_compute; reflexivity).
  assert (trace s' = new ++ trace s) as H3 by (vm_compute; reflexivity).
  split; [split_and!; assumption |].
  exact (run_table_effect (OpRequested values) cbFail s s' (Some "callback failed") new
           H1 H2 H3).
Defined.

(** X16, at a [Require], a [RunRequired] and a [RunRequested] in a row. *)
Lemma steady_state_between_calls_witness :
  let s := booted (Some ("2" +:+ newline)) [] in
  let cs := [CallRequire [SYS_ADMIN]; CallRun OpRequired cbOk;
             CallRun (OpRequested [BPF]) cbFail] in
  let rs := [None; None; Some "callback failed"] in
  let s' := final (execAll cs s) in
  let new := take (length (trace s') - length (trace s)) (trace s') in
  (bypass (Caps s) = false ∧
   active Unprivileged s = true ∧
   execAll cs s = Ret rs s' ∧
   trace s' = new ++ trace s ∧
   existsb refusal new = false) ∧
  active Unprivileged s' = true ∧
  lock (Caps s') = lock (Caps s) ∧
  length rs = length cs.
Proof.
  intros s cs rs s' new.
  assert (bypass (Caps s) = false) as H1 by (vm_compute; reflexivity).
  assert (active Unprivileged s = true) as H2 by (vm_compute; reflexivity).
  assert (execAll cs s = Ret rs s') as H3 by (vm_compute; reflexivity).
  assert (trace s' = new ++ trace s) as H4 by (vm_compute; reflexivity).
  assert (existsb refusal new = false) as H5 by (vm_compute; reflexivity).
  split; [split_and!; assumption |].
  exact (steady_state_between_calls cs s s' rs new H1 H2 H3 H4 H5).
Defined.

(** The names of the Linux capabilities are pairwise distinct. *)
Lemma Linux_namesDistinct : namesDistinct (World := Linux).
Proof.
  assert (Forall (λ v, Forall (λ w, capString v = capString w → v = w) (seq 0 41))
                 (seq 0 41)) as H
    by (apply (bool_decide_unpack _); vm_compute; exact I).
  intros v w Hv Hw E. rewrite Forall_forall in H.
  assert (v ∈ seq 0 41) as Hv' by (apply elem_of_seq; simpl in *; lia).
  assert (w ∈ seq 0 41) as Hw' by (apply elem_of_seq; simpl in *; lia).
  specialize (H v Hv'). rewrite Forall_forall in H. by apply H.
Qed.

(** X18, at three Linux capabilities, one of them twice. *)
Lemma ReqByString_roundtrip_witness :
  let vs := [BPF; IPC_LOCK; BPF; 0] in
  (namesDistinct (World := Linux) ∧ Forall (λ v, v < MaxBits) vs) ∧
  ReqByString (capString <$> vs) = (vs, None) ∧
  ReqByString ListAvailCaps = (seq 0 MaxBits, None).
Proof.
  intros vs.
  assert (Forall (λ v, v < MaxBits) vs) as H2
    by (apply (bool_decide_unpack _); vm_compute; exact I).
  split; [split; [exact Linux_namesDistinct | assumption] |].
  exact (ReqByString_roundtrip vs Linux_namesDistinct H2).
Defined.

(** X20, at a root process started over from a manager whose mutex is
    held. *)
Lemma NewCapabilities_returns_iff_known_witness :
  let s := locking (booted (Some ("3" +:+ newline)) []) in
  let c0 := kernel (world s) in
  let w0 := world s in
  let w' := (SetProc c0 (boundDropped w0)).2 in
  (GetPID (world s) = (inr c0, w0) ∧
   SetProc c0 (boundDropped w0) = (None, w')) ∧
  ((∃ r s', NewCapabilities false s = Ret r s') ↔
   Forall (λ v, v < MaxBits)
          (bootstrapValues (paranoidValueIn w').1 (GetFlag c0 Permitted BPF))).
Proof.
  intros s c0 w0 w'.
  assert (GetPID (world s) = (inr c0, w0)) as H1 by (vm_compute; reflexivity).
  assert (SetProc c0 (boundDropped w0) = (None, w')) as H2 by (vm_compute; reflexivity).
  split; [split_and!; assumption |].
  exact (NewCapabilities_returns_iff_known s c0 w0 w' H1 H2).
Defined.
